(** * Perspective correction of lensfun ([libs/lensfun/mod-pc.cpp])

    A shallow embedding of the perspective-correction code and the
    properties of it that its specification states.

    ** Numbers

    The C++ code computes on IEEE-754 [float]s.  They are idealised here as
    the extended reals with a NaN: a value is a real number, one of the two
    infinities, or NaN.  Finite arithmetic is exact (no rounding, no
    overflow) and the special values follow the IEEE rules: [x / 0] is an
    infinity or NaN, NaN propagates through every operation, and every
    ordered comparison with NaN is false, [NaN == NaN] included.  A zero has
    no sign: a division of a non-zero number by zero gives the infinity
    with the sign of the numerator.  [M_PI] is the real number pi. *)

From Stdlib Require Import Reals Lra Lia List Bool Arith ZArith RNsatz.
Import ListNotations.

Open Scope R_scope.

(** ** Idealised floating-point numbers *)

Inductive float : Type :=
| Fin (r : R)
| PInf
| NInf
| NaN.

Declare Scope fl_scope.
Delimit Scope fl_scope with fl.
Bind Scope fl_scope with float.

Module Fl.

Definition Rltb (a b : R) : bool := if Rlt_dec a b then true else false.
Definition Rleb (a b : R) : bool := if Rle_dec a b then true else false.
Definition Reqb (a b : R) : bool := if Req_dec_T a b then true else false.

(** The infinity with the sign of [r]; NaN for [r = 0]
    (this is [r * inf]). *)
Definition signed_inf (r : R) : float :=
  if Reqb r 0 then NaN else if Rltb 0 r then PInf else NInf.

Definition neg (a : float) : float :=
  match a with
  | Fin r => Fin (- r)
  | PInf => NInf
  | NInf => PInf
  | NaN => NaN
  end.

Definition add (a b : float) : float :=
  match a, b with
  | NaN, _ | _, NaN => NaN
  | Fin x, Fin y => Fin (x + y)
  | PInf, NInf | NInf, PInf => NaN
  | PInf, _ | _, PInf => PInf
  | NInf, _ | _, NInf => NInf
  end.

Definition sub (a b : float) : float := add a (neg b).

Definition mul (a b : float) : float :=
  match a, b with
  | NaN, _ | _, NaN => NaN
  | Fin x, Fin y => Fin (x * y)
  | Fin x, PInf | PInf, Fin x => signed_inf x
  | Fin x, NInf | NInf, Fin x => signed_inf (- x)
  | PInf, PInf | NInf, NInf => PInf
  | PInf, NInf | NInf, PInf => NInf
  end.

Definition div (a b : float) : float :=
  match a, b with
  | NaN, _ | _, NaN => NaN
  | Fin x, Fin y => if Reqb y 0 then signed_inf x else Fin (x / y)
  | Fin _, _ => Fin 0
  | PInf, Fin y => if Rltb y 0 then NInf else PInf
  | NInf, Fin y => if Rltb y 0 then PInf else NInf
  | _, _ => NaN
  end.

Definition sqrt (a : float) : float :=
  match a with
  | Fin r => if Rltb r 0 then NaN else Fin (R_sqrt.sqrt r)
  | PInf => PInf
  | _ => NaN
  end.

Definition fabs (a : float) : float :=
  match a with
  | Fin r => Fin (Rabs r)
  | NaN => NaN
  | _ => PInf
  end.

(** [pow (x, n)] for a natural exponent; the code only uses [n = 2]. *)
Fixpoint pow (a : float) (n : nat) : float :=
  match n with
  | O => Fin 1
  | S m => mul a (pow a m)
  end.

Definition sin (a : float) : float :=
  match a with Fin r => Fin (Rtrigo_def.sin r) | _ => NaN end.

Definition cos (a : float) : float :=
  match a with Fin r => Fin (Rtrigo_def.cos r) | _ => NaN end.

Definition atan (a : float) : float :=
  match a with
  | Fin r => Fin (Ratan.atan r)
  | PInf => Fin (PI / 2)
  | NInf => Fin (- (PI / 2))
  | NaN => NaN
  end.

Definition acos (a : float) : float :=
  match a with
  | Fin r => if Rleb (-1) r && Rleb r 1 then Fin (Ratan.acos r) else NaN
  | _ => NaN
  end.

Definition log (a : float) : float :=
  match a with
  | Fin r => if Rltb r 0 then NaN else if Reqb r 0 then NInf else Fin (ln r)
  | PInf => PInf
  | _ => NaN
  end.

(** [atan2 (y, x)], the angle of the point [(x, y)]. *)
Definition atan2 (y x : float) : float :=
  match y, x with
  | NaN, _ | _, NaN => NaN
  | Fin b, Fin a =>
      if Rltb 0 a then Fin (Ratan.atan (b / a))
      else if Rltb a 0 then
        if Rltb b 0 then Fin (Ratan.atan (b / a) - PI)
        else Fin (Ratan.atan (b / a) + PI)
      else if Rltb 0 b then Fin (PI / 2)
      else if Rltb b 0 then Fin (- (PI / 2))
      else Fin 0
  | Fin b, PInf => Fin 0
  | Fin b, NInf => if Rltb b 0 then Fin (- PI) else Fin PI
  | PInf, Fin _ => Fin (PI / 2)
  | NInf, Fin _ => Fin (- (PI / 2))
  | PInf, PInf => Fin (PI / 4)
  | NInf, PInf => Fin (- (PI / 4))
  | PInf, NInf => Fin (3 * PI / 4)
  | NInf, NInf => Fin (- (3 * PI / 4))
  end.

(** Rounding towards zero, as [fmod] uses it. *)
Definition Rtrunc (r : R) : Z :=
  if Rleb 0 r then Int_part r else (- Int_part (- r))%Z.

Definition fmod (a b : float) : float :=
  match a, b with
  | NaN, _ | _, NaN => NaN
  | Fin x, Fin y =>
      if Reqb y 0 then NaN else Fin (x - IZR (Rtrunc (x / y)) * y)
  | Fin x, _ => Fin x
  | _, _ => NaN
  end.

Definition isnan (a : float) : bool :=
  match a with NaN => true | _ => false end.

(** Comparisons: anything compared with NaN is false. *)
Definition ltb (a b : float) : bool :=
  match a, b with
  | NaN, _ | _, NaN => false
  | Fin x, Fin y => Rltb x y
  | NInf, NInf | PInf, _ | _, NInf => false
  | _, _ => true
  end.

Definition leb (a b : float) : bool :=
  match a, b with
  | NaN, _ | _, NaN => false
  | Fin x, Fin y => Rleb x y
  | NInf, _ | _, PInf => true
  | _, _ => false
  end.

Definition eqb (a b : float) : bool :=
  match a, b with
  | Fin x, Fin y => Reqb x y
  | PInf, PInf | NInf, NInf => true
  | _, _ => false
  end.

Definition of_nat (n : nat) : float := Fin (INR n).

End Fl.

Notation "a + b" := (Fl.add a b) : fl_scope.
Notation "a - b" := (Fl.sub a b) : fl_scope.
Notation "a * b" := (Fl.mul a b) : fl_scope.
Notation "a / b" := (Fl.div a b) : fl_scope.
Notation "- a" := (Fl.neg a) : fl_scope.
Notation "a <? b" := (Fl.ltb a b) (at level 70) : fl_scope.
Notation "a <=? b" := (Fl.leb a b) (at level 70) : fl_scope.
Notation "a >? b" := (Fl.ltb b a) (at level 70) : fl_scope.
Notation "a >=? b" := (Fl.leb b a) (at level 70) : fl_scope.
Notation "a =? b" := (Fl.eqb a b) (at level 70) : fl_scope.

Definition M_PI : float := Fin PI.
Definition M_PI_2 : float := Fin (PI / 2).
Definition NAN : float := NaN.

(** ** Vectors and matrices

    [fvector] is [std::vector<float>] and [matrix] a vector of rows.  A read
    outside a vector is undefined in C++; here it gives NaN, and a write
    outside changes nothing.  On every path of the code the indices are in
    range when [x] and [y] have the same length. *)

Definition fvector : Type := list float.
Definition matrix : Type := list fvector.

Definition vget (v : fvector) (i : nat) : float := nth i v NaN.

Fixpoint vset (v : fvector) (i : nat) (a : float) : fvector :=
  match v, i with
  | [], _ => []
  | _ :: t, O => a :: t
  | h :: t, S j => h :: vset t j a
  end.

Definition mget (M : matrix) (i j : nat) : float := vget (nth i M []) j.

Fixpoint mset (M : matrix) (i j : nat) (a : float) : matrix :=
  match M, i with
  | [], _ => []
  | row :: t, O => vset row j a :: t
  | row :: t, S i' => row :: mset t i' j a
  end.

(** The sub-vector [fvector (v.begin() + lo, v.begin() + hi)]. *)
Definition slice (v : fvector) (lo hi : nat) : fvector :=
  firstn (hi - lo) (skipn lo v).

(** [std::accumulate (first, last, 0.)]. *)
Definition accumulate (v : fvector) : float :=
  fold_left Fl.add v (Fin 0).

Notation "v .[ i ]" := (vget v i) (at level 1, format "v .[ i ]").
Notation "M .[ i , j ]" := (mget M i j) (at level 1, format "M .[ i ,  j ]").

Local Open Scope fl_scope.

(** ** Linear-algebra primitives *)

Definition normalize (x y : float) : fvector :=
  let norm := Fl.sqrt (Fl.pow x 2 + Fl.pow y 2) in
  [x / norm; y / norm].

(** The two outputs [x], [y] come back as a pair. *)
Definition central_projection (coordinates : fvector) (plane_distance : float)
  : float * float :=
  let stretch_factor := plane_distance / coordinates.[2] in
  (coordinates.[0] * stretch_factor, coordinates.[1] * stretch_factor).

Definition intersection (x y : fvector) : float * float :=
  let A := x.[0] * y.[1] - y.[0] * x.[1] in
  let B := x.[2] * y.[3] - y.[2] * x.[3] in
  let C := (x.[0] - x.[1]) * (y.[2] - y.[3])
           - (y.[0] - y.[1]) * (x.[2] - x.[3]) in
  let numerator_x := A * (x.[2] - x.[3]) - B * (x.[0] - x.[1]) in
  let numerator_y := A * (y.[2] - y.[3]) - B * (y.[0] - y.[1]) in
  (numerator_x / C, numerator_y / C).

(** *** One-sided Jacobi SVD *)

Module Svd.

(** [std::numeric_limits<float>::epsilon()], which is 2^-23. *)
Definition FLT_EPSILON : float := Fin (/ 2 ^ 23).

Record state : Type := mkState {
  M : matrix;
  S2 : fvector;
  counter : Z;
  estimated_column_rank : nat
}.

Section Sweep.
Variable n : nat.

Definition epsilon : float := FLT_EPSILON * Fin 10.
Definition e2 : float := Fin 10 * Fl.of_nat n * Fl.pow epsilon 2.
Definition threshold : float := Fin (1 / 10) * epsilon.
Definition max_cycles : nat := if Nat.ltb n 120 then 30%nat else Nat.div n 4.

(** [M.resize (2 * n, fvector (n))]. *)
Definition resize (M0 : matrix) : matrix :=
  firstn (2 * n) (M0 ++ repeat (repeat (Fin 0) n) (2 * n - length M0)).

(** [for (i = 0; i < n; i++) M [n + i][i] = 1;] *)
Definition stack_identity (M0 : matrix) : matrix :=
  fold_left (fun A i => mset A (n + i) i (Fin 1)) (seq 0 n) M0.

(** The sums [p], [q], [r] over the first [n] rows. *)
Definition column_sums (A : matrix) (j k : nat) : float * float * float :=
  fold_left
    (fun '(p, q, r) i =>
       let x0 := A.[i, j] in
       let y0 := A.[i, k] in
       (p + x0 * y0, q + Fl.pow x0 2, r + Fl.pow y0 2))
    (seq 0 n) (Fin 0, Fin 0, Fin 0).

(** The plane rotation of columns [j] and [k] over all [2 * n] rows. *)
Definition rotate_columns (A : matrix) (j k : nat) (c0 s0 : float) : matrix :=
  fold_left
    (fun A i =>
       let d1 := A.[i, j] in
       let d2 := A.[i, k] in
       let A := mset A i j (d1 * c0 + d2 * s0) in
       mset A i k (- d1 * s0 + d2 * c0))
    (seq 0 (2 * n)) A.

(** The body of the loop over the column pairs [(j, k)]. *)
Definition pair_step (st : state) (j k : nat) : state :=
  let '(p, q, r) := column_sums (M st) j k in
  let S2' := vset (vset (S2 st) j q) k r in
  if q >=? r then
    if (q <=? e2 * S2'.[0]) || (Fl.fabs p <=? threshold * q) then
      mkState (M st) S2' (counter st - 1) (estimated_column_rank st)
    else
      let p := p / q in
      let r := Fin 1 - r / q in
      let vt := Fl.sqrt (Fin 4 * Fl.pow p 2 + Fl.pow r 2) in
      let c0 := Fl.sqrt (Fin (1 / 2) * (Fin 1 + r / vt)) in
      let s0 := p / (vt * c0) in
      mkState (rotate_columns (M st) j k c0 s0) S2' (counter st)
              (estimated_column_rank st)
  else
    let p := p / r in
    let q := q / r - Fin 1 in
    let vt := Fl.sqrt (Fin 4 * Fl.pow p 2 + Fl.pow q 2) in
    let s0 := Fl.sqrt (Fin (1 / 2) * (Fin 1 - q / vt)) in
    let s0 := if p <? Fin 0 then - s0 else s0 in
    let c0 := p / (vt * s0) in
    mkState (rotate_columns (M st) j k c0 s0) S2' (counter st)
            (estimated_column_rank st).

(** The two nested [for] loops over [j < k < estimated_column_rank]. *)
Definition pairs (rank : nat) : list (nat * nat) :=
  flat_map (fun j => map (fun k => (j, k)) (seq (j + 1) (rank - (j + 1))))
           (seq 0 (rank - 1)).

(** [while (rank > 2 && S2 [rank - 1] <= S2 [0] * threshold + threshold^2)
    rank--;] *)
Fixpoint shrink_rank (s2 : fvector) (rank : nat) : nat :=
  match rank with
  | O => O
  | S rank' =>
      if Nat.ltb 2 rank
         && (s2.[rank - 1] <=? s2.[0] * threshold + Fl.pow threshold 2)
      then shrink_rank s2 rank'
      else rank
  end.

(** One pass of the body of the outer [while]. *)
Definition sweep (st : state) : state :=
  let rank := estimated_column_rank st in
  let st := mkState (M st) (S2 st) (Z.of_nat rank * (Z.of_nat rank - 1) / 2) rank in
  let st := fold_left (fun st '(j, k) => pair_step st j k) (pairs rank) st in
  mkState (M st) (S2 st) (counter st) (shrink_rank (S2 st) rank).

(** [while (counter != 0 && iterations++ <= max_cycles)].  [budget] is
    [max_cycles + 1 - iterations], the number of times the second test
    can still succeed.  With no budget left the loop ends, through the
    first test or through the second, and [iterations > max_cycles] holds
    afterwards: the result says whether the code emits its warning. *)
Fixpoint cycles (budget : nat) (st : state) : state * bool :=
  match budget with
  | O => (st, true)
  | S budget' =>
      if Z.eqb (counter st) 0 then (st, false)
      else cycles budget' (sweep st)
  end.

End Sweep.

Definition run (M0 : matrix) : state * bool :=
  let n := length (nth 0 M0 []) in
  let A := stack_identity n (resize n M0) in
  cycles n (max_cycles n + 1)
         (mkState A (repeat (Fin 0) n) (Z.of_nat n) n).


End Svd.

Definition svd (M : matrix) : fvector :=
  let n := length (nth 0 M []) in
  map (fun row => row.[n - 1]) (skipn n (Svd.M (fst (Svd.run M)))).

(** ** Conic fitter *)

(** The design matrix: one row per point, five points. *)
Definition design_matrix (x y : fvector) : matrix :=
  map (fun i => [Fl.pow x.[i] 2; x.[i] * y.[i]; Fl.pow y.[i] 2;
                 x.[i]; y.[i]; Fin 1])
      (seq 0 5).

(** The integer quotient [1/2] of the C++ expression [1/2 * atan (...)],
    converted to a floating-point number. *)
Definition one_half_int : float := Fin (IZR (1 / 2)).

(** The tilt [phi] of the conic, from the coefficients [a], [b], [c] and the
    two semi-axes before they are swapped (the statements on [phi] of
    [ellipse_analysis]). *)
Definition conic_tilt (a b c a_ b_ : float) : float :=
  let phi := one_half_int * Fl.atan (Fin 2 * b / (a - c)) in
  let phi := if a >? c then phi + M_PI_2 else phi in
  let phi := if a_ <? b_ then phi - M_PI_2 else phi in
  Fl.fmod (phi + M_PI_2) M_PI - M_PI_2.

(** The outputs [x_v], [y_v], [center_x], [center_y], in this order, from
    the conic [parameters]. *)
Definition ellipse_of_parameters (parameters x y : fvector) (f_normalized : float)
  : float * float * float * float :=
  let a := parameters.[0] in
  let b := parameters.[1] / Fin 2 in
  let c := parameters.[2] in
  let d := parameters.[3] / Fin 2 in
  let f := parameters.[4] / Fin 2 in
  let g := parameters.[5] in
  let _D := Fl.pow b 2 - a * c in
  let x0 := (c * d - b * f) / _D in
  let y0 := (a * f - b * d) / _D in
  let _N := Fin 2 * (a * Fl.pow f 2 + c * Fl.pow d 2 + g * Fl.pow b 2
                     - Fin 2 * b * d * f - a * c * g) / _D in
  let _S := Fl.sqrt (Fl.pow (a - c) 2 + Fin 4 * Fl.pow b 2) in
  let _R := a + c in
  let a_ := Fl.sqrt (_N / (_S - _R)) in
  let b_ := Fl.sqrt (_N / (- _S - _R)) in
  let phi := conic_tilt a b c a_ b_ in
  let '(a_, b_) := if a_ <? b_ then (b_, a_) else (a_, b_) in
  let radius_vertex := - f_normalized / Fl.sqrt (Fl.pow (a_ / b_) 2 - Fin 1) in
  let radius_vertex :=
    if (x.[0] - x0) * (y.[1] - y0) <? (x.[1] - x0) * (y.[0] - y0)
    then radius_vertex * Fin (-1) else radius_vertex in
  (radius_vertex * Fl.sin phi, radius_vertex * Fl.cos phi, x0, y0).

Definition ellipse_analysis (x y : fvector) (f_normalized : float)
  : float * float * float * float :=
  ellipse_of_parameters (svd (design_matrix x y)) x y f_normalized.

(** ** Rotations *)

Definition rotate_rho_delta (rho delta x y z : float) : fvector :=
  let A11 := Fl.cos rho in
  let A12 := Fin 0 in
  let A13 := Fl.sin rho in
  let A21 := Fl.sin rho * Fl.sin delta in
  let A22 := Fl.cos delta in
  let A23 := - Fl.cos rho * Fl.sin delta in
  let A31 := - Fl.sin rho * Fl.cos delta in
  let A32 := Fl.sin delta in
  let A33 := Fl.cos rho * Fl.cos delta in
  [A11 * x + A12 * y + A13 * z;
   A21 * x + A22 * y + A23 * z;
   A31 * x + A32 * y + A33 * z].

Definition rotate_rho_delta_rho_h (rho delta rho_h x y z : float) : fvector :=
  let A11 := Fl.cos rho * Fl.cos rho_h - Fl.sin rho * Fl.cos delta * Fl.sin rho_h in
  let A12 := Fl.sin delta * Fl.sin rho_h in
  let A13 := Fl.sin rho * Fl.cos rho_h + Fl.cos rho * Fl.cos delta * Fl.sin rho_h in
  let A21 := Fl.sin rho * Fl.sin delta in
  let A22 := Fl.cos delta in
  let A23 := - Fl.cos rho * Fl.sin delta in
  let A31 := - Fl.cos rho * Fl.sin rho_h - Fl.sin rho * Fl.cos delta * Fl.cos rho_h in
  let A32 := Fl.sin delta * Fl.cos rho_h in
  let A33 := - Fl.sin rho * Fl.sin rho_h + Fl.cos rho * Fl.cos delta * Fl.cos rho_h in
  [A11 * x + A12 * y + A13 * z;
   A21 * x + A22 * y + A23 * z;
   A31 * x + A32 * y + A33 * z].

(** The [else] branch of [determine_rho_h], taken when [y_0 == y_1] is
    false. *)
Definition rho_h_of_horizon (rho delta : float) (p0 p1 : fvector)
           (f_normalized center_x center_y : float) : float :=
  let x_0 := p0.[0] in let y_0 := p0.[1] in let z_0 := p0.[2] in
  let x_1 := p1.[0] in let y_1 := p1.[1] in let z_1 := p1.[2] in
  let '(Delta_x, Delta_z) :=
    central_projection [x_1 - x_0; z_1 - z_0; y_1 - y_0] (- y_0) in
  let x_h := x_0 + Delta_x in
  let z_h := z_0 + Delta_z in
  let rho_h :=
    if z_h =? Fin 0 then (if x_h >? Fin 0 then Fin 0 else M_PI)
    else M_PI_2 - Fl.atan (x_h / z_h) in
  if (rotate_rho_delta_rho_h rho delta rho_h center_x center_y f_normalized).[2]
     <? Fin 0
  then rho_h - M_PI else rho_h.

Definition determine_rho_h (rho delta : float) (x y : fvector)
           (f_normalized center_x center_y : float) : float :=
  let p0 := rotate_rho_delta rho delta x.[0] y.[0] f_normalized in
  let p1 := rotate_rho_delta rho delta x.[0] y.[0] f_normalized in
  let y_0 := p0.[1] in
  let y_1 := p1.[1] in
  if y_0 =? y_1 then (if y_0 =? Fin 0 then NAN else Fin 0)
  else rho_h_of_horizon rho delta p0 p1 f_normalized center_x center_y.

(** ** Angle solver *)

(** The six variables that [calculate_angles] receives by reference.  The
    function gets their values before the call and returns their values
    after it. *)
Record angle_refs : Type := mkAngles {
  rho : float;
  delta : float;
  rho_h : float;
  alpha : float;
  center_of_control_points_x : float;
  center_of_control_points_y : float
}.

(** The local variables [center_x], [center_y], [x_v], [y_v] and the
    by-value parameter [f_normalized] of [calculate_angles], after the
    statements that find the vanishing point. *)
Record vertex_locals : Type := mkLocals {
  center_x : float;
  center_y : float;
  x_v : float;
  y_v : float;
  f_local : float
}.

Definition find_vertex (x y : fvector) (f_normalized : float) : vertex_locals :=
  let number_of_control_points := length x in
  let '(center_x, center_y) :=
    if Nat.eqb number_of_control_points 6
    then (accumulate (slice x 0 4) / Fin 4, accumulate (slice y 0 4) / Fin 4)
    else (accumulate x / Fl.of_nat number_of_control_points,
          accumulate y / Fl.of_nat number_of_control_points) in
  if Nat.eqb number_of_control_points 5 || Nat.eqb number_of_control_points 7
  then
    let '(x_v, y_v, center_x, center_y) :=
      ellipse_analysis (slice x 0 5) (slice y 0 5) f_normalized in
    mkLocals center_x center_y x_v y_v f_normalized
  else
    let '(x_v, y_v) := intersection (slice x 0 4) (slice y 0 4) in
    if Nat.eqb number_of_control_points 8
    then
      let '(x_h, y_h) := intersection (slice x 4 8) (slice y 4 8) in
      let radicand := - x_h * x_v - y_h * y_v in
      if radicand >=? Fin 0
      then mkLocals center_x center_y x_v y_v (Fl.sqrt radicand)
      else mkLocals center_x center_y x_v y_v f_normalized
    else mkLocals center_x center_y x_v y_v f_normalized.

(** The direction [c] of the [switch] statement. *)
Definition direction (x y : fvector) (l : vertex_locals) : fvector :=
  match length x with
  | 4%nat | 6%nat | 8%nat =>
      let a := normalize (x_v l - x.[0]) (y_v l - y.[0]) in
      let b := normalize (x_v l - x.[2]) (y_v l - y.[2]) in
      [a.[0] + b.[0]; a.[1] + b.[1]]
  | 5%nat => [x_v l - center_x l; y_v l - center_y l]
  | _ => [x.[5] - x.[6]; y.[5] - y.[6]]
  end.

Definition calculate_angles (x y : fvector) (f_normalized : float)
           (refs : angle_refs) : angle_refs :=
  let number_of_control_points := length x in
  let l := find_vertex x y f_normalized in
  let center_x := center_x l in
  let center_y := center_y l in
  let x_v := x_v l in
  let y_v := y_v l in
  let f_normalized := f_local l in
  let rho := Fl.atan (- x_v / f_normalized) in
  let delta :=
    M_PI_2 - Fl.atan (- y_v / Fl.sqrt (Fl.pow x_v 2 + Fl.pow f_normalized 2)) in
  let delta :=
    if (rotate_rho_delta rho delta center_x center_y f_normalized).[2] <? Fin 0
    then delta - M_PI else delta in
  let c := direction x y l in
  let '(swapped_verticals_and_horizontals, alpha) :=
    if Nat.eqb number_of_control_points 7 then
      let '(x5_, y5_) :=
        central_projection (rotate_rho_delta rho delta x.[5] y.[5] f_normalized)
                           f_normalized in
      let '(x6_, y6_) :=
        central_projection (rotate_rho_delta rho delta x.[6] y.[6] f_normalized)
                           f_normalized in
      let alpha := - Fl.atan2 (y6_ - y5_) (x6_ - x5_) in
      if Fl.fabs c.[0] >? Fl.fabs c.[1]
      then (false, - Fl.fmod (alpha - M_PI_2) M_PI - M_PI_2)
      else (false, - Fl.fmod alpha M_PI - M_PI_2)
    else if Fl.fabs c.[0] >? Fl.fabs c.[1] then
      (true, if rho >? Fin 0 then M_PI_2 else - M_PI_2)
    else (false, Fin 0) in
  let rho_h :=
    if Nat.eqb number_of_control_points 4 then
      let '(x_perpendicular_line, y_perpendicular_line) :=
        if swapped_verticals_and_horizontals
        then ([center_x; center_x], [center_y - Fin 1; center_y + Fin 1])
        else ([center_x - Fin 1; center_x + Fin 1], [center_y; center_y]) in
      let rho_h := determine_rho_h rho delta x_perpendicular_line
                                   y_perpendicular_line f_normalized
                                   center_x center_y in
      if Fl.isnan rho_h then Fin 0 else rho_h
    else if Nat.eqb number_of_control_points 5
            || Nat.eqb number_of_control_points 7 then Fin 0
    else
      let rho_h := determine_rho_h rho delta (slice x 4 6) (slice y 4 6)
                                   f_normalized center_x center_y in
      if Fl.isnan rho_h then
        if Nat.eqb number_of_control_points 8
        then determine_rho_h rho delta (slice x 6 8) (slice y 6 8)
                             f_normalized center_x center_y
        else Fin 0
      else rho_h in
  mkAngles rho delta rho_h alpha
           (center_of_control_points_x refs) (center_of_control_points_y refs).

(** ** Rotation-matrix builder *)

Definition compression : float := Fin 10.

(** The product of the three half-angle quaternions, as [(w, x, y, z)]. *)
Definition quaternion (rho_1 delta rho_2 : float)
  : float * float * float * float :=
  let s_rho_2 := Fl.sin (rho_2 / Fin 2) in
  let c_rho_2 := Fl.cos (rho_2 / Fin 2) in
  let s_delta := Fl.sin (delta / Fin 2) in
  let c_delta := Fl.cos (delta / Fin 2) in
  let s_rho_1 := Fl.sin (rho_1 / Fin 2) in
  let c_rho_1 := Fl.cos (rho_1 / Fin 2) in
  let w := c_rho_2 * c_delta * c_rho_1 - s_rho_2 * c_delta * s_rho_1 in
  let x := c_rho_2 * s_delta * c_rho_1 + s_rho_2 * s_delta * s_rho_1 in
  let y := c_rho_2 * c_delta * s_rho_1 + s_rho_2 * c_delta * c_rho_1 in
  let z := c_rho_2 * s_delta * s_rho_1 - s_rho_2 * s_delta * c_rho_1 in
  (w, x, y, z).

(** The angle [theta] of the quaternion, from its component [w]. *)
Definition quaternion_angle (w : float) : float :=
  let theta := Fin 2 * Fl.acos w in
  if theta >? M_PI then theta - Fin 2 * M_PI else theta.

(** The factor that the strength [d] puts on the angle. *)
Definition strength (d : float) : float :=
  if d <=? Fin 0 then d + Fin 1
  else Fin 1 + Fin 1 / compression * Fl.log (compression * d + Fin 1).

(** The quaternion is decomposed into [theta] and the axis, [theta] is
    scaled and clamped, and the quaternion is composed again. *)
Definition rescale_quaternion (q : float * float * float * float) (d : float)
  : float * float * float * float :=
  let '(w, x, y, z) := q in
  let theta := quaternion_angle w in
  let s_theta := Fl.sin (theta / Fin 2) in
  let x := x / s_theta in
  let y := y / s_theta in
  let z := z / s_theta in
  let theta := theta * strength d in
  let theta :=
    if theta >? Fin (9 / 10) * M_PI then Fin (9 / 10) * M_PI
    else if theta <? - Fin (9 / 10) * M_PI then - Fin (9 / 10) * M_PI
    else theta in
  let w := Fl.cos (theta / Fin 2) in
  let s_theta := Fl.sin (theta / Fin 2) in
  (w, x * s_theta, y * s_theta, z * s_theta).

Definition matrix_of_quaternion (q : float * float * float * float) : matrix :=
  let '(w, x, y, z) := q in
  [[Fin 1 - Fin 2 * Fl.pow y 2 - Fin 2 * Fl.pow z 2;
    Fin 2 * x * y - Fin 2 * z * w;
    Fin 2 * x * z + Fin 2 * y * w];
   [Fin 2 * x * y + Fin 2 * z * w;
    Fin 1 - Fin 2 * Fl.pow x 2 - Fin 2 * Fl.pow z 2;
    Fin 2 * y * z - Fin 2 * x * w];
   [Fin 2 * x * z - Fin 2 * y * w;
    Fin 2 * y * z + Fin 2 * x * w;
    Fin 1 - Fin 2 * Fl.pow x 2 - Fin 2 * Fl.pow y 2]].

Definition generate_rotation_matrix (rho_1 delta rho_2 d : float) : matrix :=
  matrix_of_quaternion (rescale_quaternion (quaternion rho_1 delta rho_2) d).

(** ** Per-pixel callback *)

(** [iocoord] holds [count] interleaved pairs, changed in place. *)
Fixpoint ModifyCoord_Perspective_Correction (data : fvector) (iocoord : fvector)
         (count : nat) : fvector :=
  match count, iocoord with
  | S count', x :: y :: rest =>
      let k1 := data.[0] in
      let one_minus_k1 := Fin 1 - k1 in
      let poly2 := one_minus_k1 + k1 * (Fl.pow x 2 + Fl.pow y 2) in
      x * poly2 :: y * poly2
        :: ModifyCoord_Perspective_Correction data rest count'
  | _, _ => iocoord
  end.

(** ** The modifier and its callback pipeline *)

Record coord_callback : Type := mkCallback {
  callback : fvector -> fvector -> nat -> fvector;
  priority : Z;
  data : fvector
}.

(** Modelled from the spec: the members of the modifier that this file
    reads, and the callbacks that the pipeline holds.  The class is declared
    in [lensfun.h]. *)
Record lfModifier : Type := mkModifier {
  f_normalized : float;
  NormScale : float;
  CenterX : float;
  CenterY : float;
  CoordCallbacks : list coord_callback
}.

(** Modelled from the spec: [AddCoordCallback], the registration of a
    callback with the pipeline, which is not part of this file.  It copies
    the parameter block into the pipeline together with the callback and its
    priority. *)
Definition AddCoordCallback (m : lfModifier)
           (fn : fvector -> fvector -> nat -> fvector) (prio : Z)
           (params : fvector) : lfModifier :=
  mkModifier (f_normalized m) (NormScale m) (CenterX m) (CenterY m)
             (mkCallback fn prio params :: CoordCallbacks m).

(** ** Orchestrator *)

Inductive center_type : Type := old_image_center | control_points_center.

(** The loop that moves the control points into normalized space; it runs
    over the indices of [x]. *)
Definition normalize_points (v : fvector) (n : nat) (scale offset : float)
  : fvector :=
  map (fun a => a * scale - offset) (firstn n v) ++ skipn n v.

Definition clamp_d (d : float) : float :=
  let d := if d <? Fin (-1) then Fin (-1) else d in
  if d >? Fin 1 then Fin 1 else d.

(** The local variables [rho], [delta], [rho_h], [alpha],
    [center_of_control_points_x] and [center_of_control_points_y] of
    [enable_perspective_correction] are declared without an initial
    value: [uninit] is what they hold before [calculate_angles] runs. *)
Definition solve_angles (m : lfModifier) (x y : fvector) (uninit : angle_refs)
  : angle_refs :=
  let number_of_control_points := length x in
  let x := normalize_points x number_of_control_points (NormScale m) (CenterX m) in
  let y := normalize_points y number_of_control_points (NormScale m) (CenterY m) in
  calculate_angles x y (f_normalized m) uninit.

Definition choose_center (m : lfModifier) (r : angle_refs) : center_type :=
  let z := (rotate_rho_delta_rho_h (rho r) (delta r) (rho_h r)
                                   (Fin 0) (Fin 0) (f_normalized m)).[2] in
  if (z <=? Fin 0) || (f_normalized m / z >? Fin 10)
  then control_points_center else old_image_center.

(** [center_coords], the reference point under the forward rotation. *)
Definition center_coords (m : lfModifier) (r : angle_refs) (d : float) : fvector :=
  let A := generate_rotation_matrix (rho r) (delta r) (rho_h r) d in
  match choose_center m r with
  | old_image_center =>
      [A.[0, 2] * f_normalized m;
       A.[1, 2] * f_normalized m;
       A.[2, 2] * f_normalized m]
  | control_points_center =>
      [A.[0, 0] * center_of_control_points_x r
       + A.[0, 1] * center_of_control_points_y r
       + A.[0, 2] * f_normalized m;
       A.[1, 0] * center_of_control_points_x r
       + A.[1, 1] * center_of_control_points_y r
       + A.[1, 2] * f_normalized m;
       A.[2, 0] * center_of_control_points_x r
       + A.[2, 1] * center_of_control_points_y r
       + A.[2, 2] * f_normalized m]
  end.

(** The nine assignments that append the rotation by [alpha], in the order
    of the code. *)
Definition append_alpha (A : matrix) (alpha : float) : matrix :=
  let A := mset A 0 0 (Fl.cos alpha * A.[0, 0] + Fl.sin alpha * A.[0, 1]) in
  let A := mset A 0 1 (- Fl.sin alpha * A.[0, 0] + Fl.cos alpha * A.[0, 1]) in
  let A := mset A 0 2 A.[0, 2] in
  let A := mset A 1 0 (Fl.cos alpha * A.[1, 0] + Fl.sin alpha * A.[1, 1]) in
  let A := mset A 1 1 (- Fl.sin alpha * A.[1, 0] + Fl.cos alpha * A.[1, 1]) in
  let A := mset A 1 2 A.[1, 2] in
  let A := mset A 2 0 (Fl.cos alpha * A.[2, 0] + Fl.sin alpha * A.[2, 1]) in
  let A := mset A 2 1 (- Fl.sin alpha * A.[2, 0] + Fl.cos alpha * A.[2, 1]) in
  mset A 2 2 A.[2, 2].

(** The two assignments that rotate the shift [(Delta_a, Delta_b)]. *)
Definition rotate_shift (alpha Delta_a Delta_b : float) : float * float :=
  let Delta_a := Fl.cos alpha * Delta_a + Fl.sin alpha * Delta_b in
  let Delta_b := - Fl.sin alpha * Delta_a + Fl.cos alpha * Delta_b in
  (Delta_a, Delta_b).

(** The array [tmp] of twelve numbers handed to [AddCoordCallback]. *)
Definition parameter_block (m : lfModifier) (r : angle_refs) (d : float) : fvector :=
  let cc := center_coords m r d in
  let mapping_scale := f_normalized m / cc.[2] in
  let A := generate_rotation_matrix (- rho_h r) (- delta r) (- rho r) d in
  let A := append_alpha A (alpha r) in
  let '(Delta_a, Delta_b) := central_projection cc (f_normalized m) in
  let '(Delta_a, Delta_b) := rotate_shift (alpha r) Delta_a Delta_b in
  [A.[0, 0] * mapping_scale; A.[0, 1] * mapping_scale; A.[0, 2];
   A.[1, 0] * mapping_scale; A.[1, 1] * mapping_scale; A.[1, 2];
   A.[2, 0] * mapping_scale; A.[2, 1] * mapping_scale; A.[2, 2];
   f_normalized m; Delta_a / mapping_scale; Delta_b / mapping_scale].

(** The result is the returned [bool] and the modifier after the call. *)
Definition enable_perspective_correction (m : lfModifier) (x y : fvector)
           (d : float) (uninit : angle_refs) : bool * lfModifier :=
  let number_of_control_points := length x in
  if (f_normalized m <=? Fin 0)
     || Nat.ltb number_of_control_points 4
     || Nat.ltb 8 number_of_control_points
  then (false, m)
  else
    let d := clamp_d d in
    let r := solve_angles m x y uninit in
    if (center_coords m r d).[2] <=? Fin 0 then (false, m)
    else
      (true,
       AddCoordCallback m ModifyCoord_Perspective_Correction 200
                        (parameter_block m r d)).

(** ** The per-pixel mapping as the specification states it *)

(** One pair [(x, y)] under the parameter block [p]: the packed matrix
    applied to [(x + p9, y + p10, f)], then the central projection. *)
Definition spec_reverse_map (p : fvector) (x y : float) : float * float :=
  let f := p.[9] in
  let xs := x + p.[10] in
  let ys := y + p.[11] in
  let x' := p.[0] * xs + p.[1] * ys + p.[2] * f in
  let y' := p.[3] * xs + p.[4] * ys + p.[5] * f in
  let z' := p.[6] * xs + p.[7] * ys + p.[8] * f in
  (x' * f / z', y' * f / z').

(** The matrix [A * R_z(alpha)]: every entry from the entries of [A]. *)
Definition spec_append_alpha (A : matrix) (alpha : float) : matrix :=
  map (fun i =>
         [Fl.cos alpha * A.[i, 0] + Fl.sin alpha * A.[i, 1];
          - Fl.sin alpha * A.[i, 0] + Fl.cos alpha * A.[i, 1];
          A.[i, 2]])
      (seq 0 3).

Definition spec_rotate_shift (alpha Delta_a Delta_b : float) : float * float :=
  (Fl.cos alpha * Delta_a + Fl.sin alpha * Delta_b,
   - Fl.sin alpha * Delta_a + Fl.cos alpha * Delta_b).

(** The tilt as the specification states it: half the arc tangent. *)
Definition spec_conic_tilt (a b c a_ b_ : float) : float :=
  let phi := Fin (1 / 2) * Fl.atan (Fin 2 * b / (a - c)) in
  let phi := if a >? c then phi + M_PI_2 else phi in
  let phi := if a_ <? b_ then phi - M_PI_2 else phi in
  Fl.fmod (phi + M_PI_2) M_PI - M_PI_2.

(** The reference center as the specification states it. *)
Definition spec_reference_center (x y : fvector) : float * float :=
  if Nat.eqb (length x) 6
  then (accumulate (slice x 0 4) / Fin 4, accumulate (slice y 0 4) / Fin 4)
  else (accumulate x / Fl.of_nat (length x), accumulate y / Fl.of_nat (length x)).

(** The rotated reference center as the specification states it: the
    angles and the choice between the two references are those that the
    code computes, and the point that is transformed under
    [control_points_center] is the reference center of the normalized
    control points. *)
Definition spec_center_coords (m : lfModifier) (x y : fvector) (d : float)
           (uninit : angle_refs) : fvector :=
  let number_of_control_points := length x in
  let xs := normalize_points x number_of_control_points (NormScale m) (CenterX m) in
  let ys := normalize_points y number_of_control_points (NormScale m) (CenterY m) in
  let r := solve_angles m x y uninit in
  let '(cx, cy) := spec_reference_center xs ys in
  center_coords m (mkAngles (rho r) (delta r) (rho_h r) (alpha r) cx cy)
                (clamp_d d).

(** The failure conditions as the specification states them. *)
Definition spec_failure (m : lfModifier) (x y : fvector) (d : float)
           (uninit : angle_refs) : bool :=
  (f_normalized m <=? Fin 0)
  || Nat.ltb (length x) 4
  || Nat.ltb 8 (length x)
  || ((spec_center_coords m x y d uninit).[2] <=? Fin 0).

(** *** Rotation matrices *)

Definition identity3 : matrix :=
  [[Fin 1; Fin 0; Fin 0]; [Fin 0; Fin 1; Fin 0]; [Fin 0; Fin 0; Fin 1]].

Definition nan3 : matrix :=
  [[NaN; NaN; NaN]; [NaN; NaN; NaN]; [NaN; NaN; NaN]].

(** The product of the transpose of [A] with [A]. *)
Definition gram (A : matrix) : matrix :=
  map (fun i =>
         map (fun j => A.[0, i] * A.[0, j] + A.[1, i] * A.[1, j]
                       + A.[2, i] * A.[2, j])
             (seq 0 3))
      (seq 0 3).

Definition det3 (A : matrix) : float :=
  A.[0, 0] * (A.[1, 1] * A.[2, 2] - A.[1, 2] * A.[2, 1])
  - A.[0, 1] * (A.[1, 0] * A.[2, 2] - A.[1, 2] * A.[2, 0])
  + A.[0, 2] * (A.[1, 0] * A.[2, 1] - A.[1, 1] * A.[2, 0]).

Definition is_rotation (A : matrix) : Prop :=
  gram A = identity3 /\ det3 A = Fin 1.

(** The matrix [R_y(rho_2) * R_x(delta) * R_y(rho_1)] of the comments of the
    code, for real angles; its entries are those of
    [rotate_rho_delta_rho_h]. *)
Definition rotation_y_x_y (rho_1 delta rho_2 : R) : matrix :=
  [[Fin (cos rho_1 * cos rho_2 - sin rho_1 * cos delta * sin rho_2);
    Fin (sin delta * sin rho_2);
    Fin (sin rho_1 * cos rho_2 + cos rho_1 * cos delta * sin rho_2)];
   [Fin (sin rho_1 * sin delta);
    Fin (cos delta);
    Fin (- cos rho_1 * sin delta)];
   [Fin (- cos rho_1 * sin rho_2 - sin rho_1 * cos delta * cos rho_2);
    Fin (sin delta * cos rho_2);
    Fin (- sin rho_1 * sin rho_2 + cos rho_1 * cos delta * cos rho_2)]]%R.

(** The component [w] of the composed quaternion. *)
Definition quaternion_w (rho_1 delta rho_2 : float) : float :=
  fst (fst (fst (quaternion rho_1 delta rho_2))).

(** The components of the composed quaternion for real angles. *)
Definition qw (r1 dl r2 : R) : R :=
  (cos (r2 / 2) * cos (dl / 2) * cos (r1 / 2)
   + - (sin (r2 / 2) * cos (dl / 2) * sin (r1 / 2)))%R.
Definition qx (r1 dl r2 : R) : R :=
  (cos (r2 / 2) * sin (dl / 2) * cos (r1 / 2)
   + sin (r2 / 2) * sin (dl / 2) * sin (r1 / 2))%R.
Definition qy (r1 dl r2 : R) : R :=
  (cos (r2 / 2) * cos (dl / 2) * sin (r1 / 2)
   + sin (r2 / 2) * cos (dl / 2) * cos (r1 / 2))%R.
Definition qz (r1 dl r2 : R) : R :=
  (cos (r2 / 2) * sin (dl / 2) * sin (r1 / 2)
   + - (sin (r2 / 2) * sin (dl / 2) * cos (r1 / 2)))%R.

(** The block with the rotation by [alpha] as the specification states it:
    [spec_append_alpha] and [spec_rotate_shift] in the place of the
    assignments of the code. *)
Definition spec_parameter_block (m : lfModifier) (r : angle_refs) (d : float)
  : fvector :=
  let cc := center_coords m r d in
  let mapping_scale := (f_normalized m / cc.[2])%fl in
  let A := generate_rotation_matrix (- rho_h r) (- delta r) (- rho r) d in
  let A := spec_append_alpha A (alpha r) in
  let '(Delta_a, Delta_b) := central_projection cc (f_normalized m) in
  let '(Delta_a, Delta_b) := spec_rotate_shift (alpha r) Delta_a Delta_b in
  [A.[0, 0] * mapping_scale; A.[0, 1] * mapping_scale; A.[0, 2];
   A.[1, 0] * mapping_scale; A.[1, 1] * mapping_scale; A.[1, 2];
   A.[2, 0] * mapping_scale; A.[2, 1] * mapping_scale; A.[2, 2];
   f_normalized m; Delta_a / mapping_scale; Delta_b / mapping_scale]%fl.

(** ** Concrete inputs *)

(** The parameter block of the identity mapping: the identity matrix, the
    focal length one and no shift. *)
Definition identity_block : fvector :=
  [Fin 1; Fin 0; Fin 0; Fin 0; Fin 1; Fin 0; Fin 0; Fin 0; Fin 1;
   Fin 1; Fin 0; Fin 0].

(** A modifier with focal length [f], scale one, center zero and an empty
    pipeline: the setting of the end-to-end scenarios. *)
Definition plain_modifier (f : float) : lfModifier :=
  mkModifier f (Fin 1) (Fin 0) (Fin 0) [].

(** Scenario A: an axis-aligned rectangle around the optical axis. *)
Definition scenario_A_x : fvector := [Fin (-1/2); Fin (-1/2); Fin (1/2); Fin (1/2)].
Definition scenario_A_y : fvector := [Fin (-1/2); Fin (1/2); Fin (-1/2); Fin (1/2)].

(** Scenario B: the rectangle moved down by a tenth. *)
Definition scenario_B_x : fvector := [Fin (-1/2); Fin (-1/2); Fin (1/2); Fin (1/2)].
Definition scenario_B_y : fvector := [Fin (-2/5); Fin (3/5); Fin (-2/5); Fin (3/5)].

(** The parameter block that scenario A registers. *)
Definition scenario_A_block : fvector :=
  [NaN; NaN; NaN; NaN; NaN; NaN; NaN; NaN; NaN; Fin 1; NaN; NaN].

(** Four points on two lines that meet to the left of the image, in
    [(-1, -1)]: the lines are taken for horizontals. *)
Definition sideways_x : fvector := [Fin 0; Fin 1; Fin (1/2); Fin 2].
Definition sideways_y : fvector := [Fin (-1/4); Fin (1/2); Fin (-3/8); Fin (1/4)].

(** Eight points: two verticals that meet in [(0, -3/2)] and two
    horizontals that meet in [(4, 3/2)].  The two vanishing points belong
    to the focal length [3/2]. *)
Definition refine_x : fvector :=
  [Fin (-1/2); Fin (-1/4); Fin (1/2); Fin (1/4);
   Fin (-1/2); Fin 0; Fin (-1/2); Fin 0].
Definition refine_y : fvector :=
  [Fin (1/2); Fin (-1/2); Fin (1/2); Fin (-1/2);
   Fin (3/8); Fin (1/2); Fin (-3/4); Fin (-1/2)].

(** Four points on two lines that meet in [(-1, 0)], at the height of the
    optical axis: the image center is rotated into the plane [z = 0]. *)
Definition level_x : fvector := [Fin 0; Fin 1; Fin (1/2); Fin 2].
Definition level_y : fvector := [Fin (3/4); Fin (3/2); Fin (5/8); Fin (5/4)].

(** Some content of the six uninitialised variables. *)
Definition stale_refs : angle_refs :=
  mkAngles (Fin 7) (Fin 7) (Fin 7) (Fin 7) (Fin 7) (Fin 7).

(** Some other content. *)
Definition stale_refs' : angle_refs :=
  mkAngles (Fin 7) (Fin 7) (Fin 7) (Fin 7) (Fin 7) (Fin (-7)).

(** ** Notions for the further properties *)



(** The product of a matrix with the vector [(x, y, z)], written as
    [enable_perspective_correction] writes it for [center_coords]. *)
Definition apply3 (A : matrix) (x y z : float) : fvector :=
  map (fun i => A.[i, 0] * x + A.[i, 1] * y + A.[i, 2] * z) (seq 0 3).

Local Close Scope fl_scope.

(** * Facts about the numbers *)

Section FloatFacts.

Lemma Rltb_true a b : a < b -> Fl.Rltb a b = true.
Proof. intros H; unfold Fl.Rltb; destruct (Rlt_dec a b); [reflexivity | contradiction]. Qed.

Lemma Rltb_false a b : ~ a < b -> Fl.Rltb a b = false.
Proof. intros H; unfold Fl.Rltb; destruct (Rlt_dec a b); [contradiction | reflexivity]. Qed.

Lemma Rleb_true a b : a <= b -> Fl.Rleb a b = true.
Proof. intros H; unfold Fl.Rleb; destruct (Rle_dec a b); [reflexivity | contradiction]. Qed.

Lemma Rleb_false a b : ~ a <= b -> Fl.Rleb a b = false.
Proof. intros H; unfold Fl.Rleb; destruct (Rle_dec a b); [contradiction | reflexivity]. Qed.

Lemma Reqb_true a b : a = b -> Fl.Reqb a b = true.
Proof. intros H; unfold Fl.Reqb; destruct (Req_dec_T a b); [reflexivity | contradiction]. Qed.

Lemma Reqb_false a b : a <> b -> Fl.Reqb a b = false.
Proof. intros H; unfold Fl.Reqb; destruct (Req_dec_T a b); [contradiction | reflexivity]. Qed.


Lemma Rleb_spec a b : Fl.Rleb a b = true <-> a <= b.
Proof. unfold Fl.Rleb; destruct (Rle_dec a b); split; auto; discriminate. Qed.

Lemma Reqb_spec a b : Fl.Reqb a b = true <-> a = b.
Proof. unfold Fl.Reqb; destruct (Req_dec_T a b); split; auto; discriminate. Qed.

Lemma div_fin a b : b <> 0 -> Fl.div (Fin a) (Fin b) = Fin (a / b).
Proof. intros H; unfold Fl.div; rewrite Reqb_false by assumption; reflexivity. Qed.

Lemma div_zero_zero : Fl.div (Fin 0) (Fin 0) = NaN.
Proof.
  unfold Fl.div, Fl.signed_inf; rewrite !Reqb_true by reflexivity; reflexivity.
Qed.

Lemma sqrt_fin a : 0 <= a -> Fl.sqrt (Fin a) = Fin (sqrt a).
Proof. intros H; unfold Fl.sqrt; rewrite Rltb_false by lra; reflexivity. Qed.

Lemma fin_inj a b : Fin a = Fin b -> a = b.
Proof. intros H; injection H; auto. Qed.

(** NaN absorbs. *)
Lemma add_nan_l a : Fl.add NaN a = NaN.
Proof. reflexivity. Qed.
Lemma add_nan_r a : Fl.add a NaN = NaN.
Proof. destruct a; reflexivity. Qed.
Lemma sub_nan_l a : Fl.sub NaN a = NaN.
Proof. reflexivity. Qed.
Lemma sub_nan_r a : Fl.sub a NaN = NaN.
Proof. destruct a; reflexivity. Qed.
Lemma mul_nan_l a : Fl.mul NaN a = NaN.
Proof. reflexivity. Qed.
Lemma mul_nan_r a : Fl.mul a NaN = NaN.
Proof. destruct a; reflexivity. Qed.
Lemma div_nan_l a : Fl.div NaN a = NaN.
Proof. reflexivity. Qed.
Lemma div_nan_r a : Fl.div a NaN = NaN.
Proof. destruct a; reflexivity. Qed.
Lemma ltb_nan_l a : Fl.ltb NaN a = false.
Proof. reflexivity. Qed.
Lemma ltb_nan_r a : Fl.ltb a NaN = false.
Proof. destruct a; reflexivity. Qed.
Lemma leb_nan_l a : Fl.leb NaN a = false.
Proof. reflexivity. Qed.
Lemma leb_nan_r a : Fl.leb a NaN = false.
Proof. destruct a; reflexivity. Qed.
Lemma eqb_nan_r a : Fl.eqb a NaN = false.
Proof. destruct a; reflexivity. Qed.

(** [x == x] fails exactly for NaN. *)
Lemma eqb_refl_isnan a : Fl.eqb a a = negb (Fl.isnan a).
Proof. destruct a; simpl; auto using Reqb_true. Qed.

(** The operations on finite numbers. *)
Lemma add_fin a b : Fl.add (Fin a) (Fin b) = Fin (a + b).
Proof. reflexivity. Qed.
Lemma sub_fin a b : Fl.sub (Fin a) (Fin b) = Fin (a - b).
Proof. reflexivity. Qed.
Lemma mul_fin a b : Fl.mul (Fin a) (Fin b) = Fin (a * b).
Proof. reflexivity. Qed.
Lemma neg_fin a : Fl.neg (Fin a) = Fin (- a).
Proof. reflexivity. Qed.
Lemma pow2_fin a : Fl.pow (Fin a) 2 = Fin (a * a).
Proof. cbn; f_equal; ring. Qed.
Lemma sin_fin a : Fl.sin (Fin a) = Fin (sin a).
Proof. reflexivity. Qed.
Lemma cos_fin a : Fl.cos (Fin a) = Fin (cos a).
Proof. reflexivity. Qed.
Lemma atan_fin a : Fl.atan (Fin a) = Fin (atan a).
Proof. reflexivity. Qed.
Lemma fabs_fin a : Fl.fabs (Fin a) = Fin (Rabs a).
Proof. reflexivity. Qed.
Lemma ltb_fin a b : Fl.ltb (Fin a) (Fin b) = Fl.Rltb a b.
Proof. reflexivity. Qed.
Lemma leb_fin a b : Fl.leb (Fin a) (Fin b) = Fl.Rleb a b.
Proof. reflexivity. Qed.
Lemma eqb_fin a b : Fl.eqb (Fin a) (Fin b) = Fl.Reqb a b.
Proof. reflexivity. Qed.
Lemma div_fin_2 a : Fl.div (Fin a) (Fin 2) = Fin (a / 2).
Proof. apply div_fin; lra. Qed.

End FloatFacts.

Create Rewrite HintDb fl.
#[local] Hint Rewrite add_fin sub_fin mul_fin neg_fin pow2_fin sin_fin cos_fin
  atan_fin fabs_fin ltb_fin leb_fin eqb_fin div_fin_2
  add_nan_l add_nan_r sub_nan_l sub_nan_r mul_nan_l mul_nan_r
  div_nan_l div_nan_r ltb_nan_l ltb_nan_r leb_nan_l leb_nan_r eqb_nan_r : fl.

(** Propagates NaN through the operations. *)
Ltac nan_prop :=
  repeat (progress rewrite ?add_nan_l, ?add_nan_r, ?sub_nan_l, ?sub_nan_r,
            ?mul_nan_l, ?mul_nan_r, ?div_nan_l, ?div_nan_r, ?ltb_nan_l,
            ?ltb_nan_r, ?leb_nan_l, ?leb_nan_r, ?eqb_nan_r).

(** Settles the comparisons of real numbers that [lra] can decide. *)
Ltac decide_R :=
  repeat match goal with
    | |- context [Fl.Rltb ?a ?b] =>
        first [ rewrite (Rltb_true a b) by lra | rewrite (Rltb_false a b) by lra ]
    | |- context [Fl.Rleb ?a ?b] =>
        first [ rewrite (Rleb_true a b) by lra | rewrite (Rleb_false a b) by lra ]
    | |- context [Fl.Reqb ?a ?b] =>
        first [ rewrite (Reqb_true a b) by lra | rewrite (Reqb_false a b) by lra ]
    end.

(** Unfolds the operations on numbers that are applied to constructors. *)
Ltac fl_step :=
  unfold M_PI, M_PI_2, NAN, Fl.signed_inf;
  cbn [Fl.add Fl.sub Fl.mul Fl.div Fl.neg Fl.pow Fl.sqrt Fl.fabs Fl.sin Fl.cos
       Fl.atan Fl.acos Fl.log Fl.isnan Fl.ltb Fl.leb Fl.eqb Fl.signed_inf
       vget mget vset mset nth fst snd andb orb negb].

Ltac fl_eval := repeat (progress (fl_step; decide_R)).

(** The same by rewriting only: an operation is touched only when its
    arguments are finite numbers or NaN, a division when [lra] or a
    hypothesis shows the divisor different from zero. *)
Ltac fl_rw :=
  unfold M_PI, M_PI_2, NAN;
  repeat (progress (cbn [vget mget vset mset nth fst snd andb orb negb];
                    autorewrite with fl;
                    rewrite ?div_fin by (assumption || lra);
                    rewrite ?sqrt_fin by (assumption || lra);
                    decide_R)).

(** Unfolds the operations on vectors that are applied to given lists. *)
Ltac list_step :=
  unfold slice, accumulate, normalize_points, Fl.of_nat;
  cbn [length map firstn skipn app fold_left seq Nat.eqb Nat.ltb Nat.leb
       Nat.sub orb andb negb INR].

(** Equalities of pairs and lists of finite numbers, the equations of real
    numbers by [tac]. *)
Ltac fin_by tac :=
  repeat match goal with
    | |- (_, _) = (_, _) => apply f_equal2
    | |- _ :: _ = _ :: _ => apply f_equal2
    | |- @nil _ = @nil _ => reflexivity
    | |- Fin _ = Fin _ => apply f_equal; tac
    end.

Ltac fin_lra := fin_by lra.

(** * Checks of the embedding *)

(** The two diagonals of the unit square cross in its middle. *)
Example intersection_of_diagonals :
  intersection [Fin 0; Fin 1; Fin 0; Fin 1] [Fin 0; Fin 1; Fin 1; Fin 0]
  = (Fin (1 / 2), Fin (1 / 2)).
Proof. unfold intersection; fl_rw; fin_lra. Qed.

(** A sweep over six columns visits fifteen pairs, in the order of the two
    loops. *)
Example pairs_of_six_columns :
  length (Svd.pairs 6) = 15%nat
  /\ firstn 6 (Svd.pairs 6)
     = [(0, 1); (0, 2); (0, 3); (0, 4); (0, 5); (1, 2)]%nat.
Proof. split; reflexivity. Qed.

(** The design matrix of five points has five rows of six numbers and is
    padded to twelve rows. *)
Example design_matrix_shape (x y : fvector) :
  length (design_matrix x y) = 5%nat
  /\ length (nth 0 (design_matrix x y) []) = 6%nat
  /\ length (Svd.stack_identity 6 (Svd.resize 6 (design_matrix x y))) = 12%nat.
Proof. repeat split; reflexivity. Qed.

(** The strength [d] is clamped into [-1, 1]. *)
Example clamp_d_of_ten : clamp_d (Fin 10) = Fin 1 /\ clamp_d (Fin (-3)) = Fin (-1).
Proof. unfold clamp_d; split; fl_eval; reflexivity. Qed.

(** * The per-pixel callback *)

Lemma callback_reads_only_k1 (data data' iocoord : fvector) (count : nat) :
  vget data 0 = vget data' 0 ->
  ModifyCoord_Perspective_Correction data iocoord count
  = ModifyCoord_Perspective_Correction data' iocoord count.
Proof.
  intros Hk; revert iocoord.
  induction count as [|count IH]; intros [|x [|y rest]]; try reflexivity.
  cbn [ModifyCoord_Perspective_Correction]; rewrite Hk, IH; reflexivity.
Qed.

(** C1. Specified: for every parameter block the callback maps [(x, y)] to the
    central projection of the packed matrix applied to the shifted point.
    The code instead multiplies the pair by the polynomial
    [1 - k1 + k1 * (x^2 + y^2)] with [k1] the first number of the block: under
    the identity block the pair [(2, 3)] becomes [(26, 39)], whereas the
    specified mapping leaves it at [(2, 3)]. *)
Theorem callback_is_a_distortion_polynomial :
  ModifyCoord_Perspective_Correction identity_block [Fin 2; Fin 3] 1
  = [Fin 26; Fin 39]
  /\ spec_reverse_map identity_block (Fin 2) (Fin 3) = (Fin 2, Fin 3).
Proof.
  split.
  - unfold identity_block; cbn [ModifyCoord_Perspective_Correction]; fl_eval.
    fin_lra.
  - unfold spec_reverse_map, identity_block; fl_eval.
    fin_lra.
Qed.

(** * The reference center *)

Lemma calculate_angles_center_x (x y : fvector) (f : float) (refs : angle_refs) :
  center_of_control_points_x (calculate_angles x y f refs)
  = center_of_control_points_x refs.
Proof.
  unfold calculate_angles.
  repeat match goal with
         | |- context [let '(_, _) := ?e in _] => destruct e
         end.
  reflexivity.
Qed.

Lemma calculate_angles_center_y (x y : fvector) (f : float) (refs : angle_refs) :
  center_of_control_points_y (calculate_angles x y f refs)
  = center_of_control_points_y refs.
Proof.
  unfold calculate_angles.
  repeat match goal with
         | |- context [let '(_, _) := ?e in _] => destruct e
         end.
  reflexivity.
Qed.

Lemma accumulate_4 (a b c d : R) :
  accumulate [Fin a; Fin b; Fin c; Fin d] = Fin (0 + a + b + c + d).
Proof. reflexivity. Qed.

(** * The residual horizontal correction *)

Lemma rho_h_of_horizon_nan (rho delta : float) (p0 p1 : fvector)
      (f cx cy : float) :
  vget p0 1 = NaN -> rho_h_of_horizon rho delta p0 p1 f cx cy = NaN.
Proof.
  intros Hy; unfold rho_h_of_horizon, central_projection.
  rewrite Hy; fl_step; nan_prop; fl_step.
  destruct (Fl.ltb _ _); reflexivity.
Qed.

Lemma determine_rho_h_value (rho delta : float) (x y : fvector)
      (f cx cy : float) :
  determine_rho_h rho delta x y f cx cy
  = match vget (rotate_rho_delta rho delta (vget x 0) (vget y 0) f) 1 with
    | NaN => NaN
    | y_0 => if Fl.eqb y_0 (Fin 0) then NaN else Fin 0
    end.
Proof.
  unfold determine_rho_h; rewrite eqb_refl_isnan.
  destruct (vget (rotate_rho_delta rho delta (vget x 0) (vget y 0) f) 1) eqn:Hy;
    cbn [Fl.isnan negb]; try reflexivity.
  apply rho_h_of_horizon_nan; assumption.
Qed.

(** C6, as it holds.  [p0] and [p1] are the same vector, so [y_0 == y_1]
    holds exactly when [y_0] is not NaN, and the else branch runs exactly
    when [y_0] is NaN; it then returns NaN.  For every input
    [determine_rho_h] returns 0 when [y_0] is a number other than zero and
    NaN when [y_0] is zero or NaN. *)
Theorem determine_rho_h_result (rho delta : float) (x y : fvector)
        (f cx cy : float) :
  let p0 := rotate_rho_delta rho delta (vget x 0) (vget y 0) f in
  let y_0 := vget p0 1 in
  Fl.eqb y_0 y_0 = negb (Fl.isnan y_0)
  /\ determine_rho_h rho delta x y f cx cy
     = (if Fl.isnan y_0 then rho_h_of_horizon rho delta p0 p0 f cx cy
        else if Fl.eqb y_0 (Fin 0) then NaN else Fin 0)
  /\ determine_rho_h rho delta x y f cx cy
     = (if Fl.isnan y_0 || Fl.eqb y_0 (Fin 0) then NaN else Fin 0).
Proof.
  cbv zeta; split; [apply eqb_refl_isnan |]; split.
  - unfold determine_rho_h; rewrite eqb_refl_isnan.
    destruct (vget _ 1); reflexivity.
  - rewrite determine_rho_h_value.
    destruct (vget _ 1); reflexivity.
Qed.

(** C6, as stated, fails when [y_0] is NaN, as for the angles that scenario A
    hands over: [y_0 == y_1] is false, [y_0] is not zero, and the result is
    NaN and not 0. *)
Lemma determine_rho_h_nan_angles :
  let x := [Fin (-1); Fin 1] in
  let y := [Fin 0; Fin 0] in
  let y_0 := vget (rotate_rho_delta NaN NaN (vget x 0) (vget y 0) (Fin 1)) 1 in
  Fl.eqb y_0 y_0 = false
  /\ Fl.eqb y_0 (Fin 0) = false
  /\ determine_rho_h NaN NaN x y (Fin 1) (Fin 0) (Fin 0) = NaN
  /\ determine_rho_h NaN NaN x y (Fin 1) (Fin 0) (Fin 0) <> Fin 0.
Proof.
  cbv zeta; rewrite determine_rho_h_value.
  unfold rotate_rho_delta; fl_step.
  repeat split; discriminate.
Qed.

(** * The tilt of the conic *)

Lemma one_half_int_zero : one_half_int = Fin 0.
Proof. reflexivity. Qed.

Lemma Rtrunc_eq (r : R) (z : Z) :
  0 <= IZR z -> IZR z <= r < IZR z + 1 -> Fl.Rtrunc r = z.
Proof.
  intros Hz Hr; unfold Fl.Rtrunc.
  rewrite Rleb_true by lra.
  symmetry; apply Int_part_spec; lra.
Qed.

(** [fmod (x, pi)] for [x] between [k * pi] and [(k + 1) * pi]. *)
Lemma fmod_PI (x : R) (k : Z) :
  0 <= IZR k -> IZR k * PI <= x < (IZR k + 1) * PI ->
  Fl.fmod (Fin x) (Fin PI) = Fin (x - IZR k * PI).
Proof.
  intros Hk Hx; unfold Fl.fmod.
  pose proof PI_RGT_0 as Hpi.
  rewrite Reqb_false by lra.
  rewrite (Rtrunc_eq (x / PI) k); [reflexivity | assumption |].
  split.
  - apply Rmult_le_reg_r with PI; [lra |].
    unfold Rdiv; rewrite Rmult_assoc, Rinv_l by lra; lra.
  - apply Rmult_lt_reg_r with PI; [lra |].
    unfold Rdiv; rewrite Rmult_assoc, Rinv_l by lra; lra.
Qed.

Lemma atan_zero_times (a : float) :
  Fl.isnan a = false -> Fl.mul (Fin 0) (Fl.atan a) = Fin 0.
Proof.
  destruct a; cbn; intros H; try discriminate; f_equal; lra.
Qed.

(** Whatever the conic, the tilt that the code computes is 0 or [-pi/2]:
    the arc tangent is multiplied by the integer quotient [1/2 = 0]. *)
Lemma conic_tilt_value (a b c a_ b_ : float) :
  Fl.isnan (Fl.div (Fl.mul (Fin 2) b) (Fl.sub a c)) = false ->
  conic_tilt a b c a_ b_
  = if xorb (Fl.ltb c a) (Fl.ltb a_ b_) then Fin (- (PI / 2)) else Fin 0.
Proof.
  intros Hnan; unfold conic_tilt.
  rewrite one_half_int_zero, atan_zero_times by assumption.
  pose proof PI_RGT_0 as Hpi.
  destruct (Fl.ltb c a), (Fl.ltb a_ b_); cbn [xorb]; fl_step.
  - rewrite (fmod_PI _ 0) by lra; fl_step; fin_lra.
  - rewrite (fmod_PI _ 1) by lra; fl_step; fin_lra.
  - rewrite (fmod_PI _ 0) by lra; fl_step; fin_lra.
  - rewrite (fmod_PI _ 0) by lra; fl_step; fin_lra.
Qed.

Lemma atan_2_bounds : 0 < atan 2 < PI / 2.
Proof.
  split.
  - rewrite <- atan_0; apply atan_increasing; lra.
  - apply atan_bound.
Qed.

(** C7. Specified: the tilt starts from half the arc tangent of
    [2b / (a - c)].  The code multiplies the arc tangent by the integer
    quotient [1/2], which is 0.  For the conic [2x^2 + 2xy + y^2 = 1]
    ([a = 2], [b = 1], [c = 1]) with [a' >= b'] the code gives [-pi/2],
    which lies outside the specified interval, where half the arc
    tangent gives [atan(2)/2 - pi/2]. *)
Theorem conic_tilt_drops_the_arc_tangent :
  conic_tilt (Fin 2) (Fin 1) (Fin 1) (Fin 2) (Fin 1) = Fin (- (PI / 2))
  /\ spec_conic_tilt (Fin 2) (Fin 1) (Fin 1) (Fin 2) (Fin 1)
     = Fin (atan 2 / 2 - PI / 2)
  /\ conic_tilt (Fin 2) (Fin 1) (Fin 1) (Fin 2) (Fin 1)
     <> spec_conic_tilt (Fin 2) (Fin 1) (Fin 1) (Fin 2) (Fin 1)
  /\ Fl.ltb (Fin (- (PI / 2)))
            (conic_tilt (Fin 2) (Fin 1) (Fin 1) (Fin 2) (Fin 1)) = false.
Proof.
  pose proof PI_RGT_0 as Hpi.
  pose proof atan_2_bounds as Hat.
  assert (Hcode : conic_tilt (Fin 2) (Fin 1) (Fin 1) (Fin 2) (Fin 1)
                  = Fin (- (PI / 2))).
  { rewrite conic_tilt_value; fl_eval; reflexivity. }
  assert (Hspec : spec_conic_tilt (Fin 2) (Fin 1) (Fin 1) (Fin 2) (Fin 1)
                  = Fin (atan 2 / 2 - PI / 2)).
  { unfold spec_conic_tilt; fl_eval.
    replace (2 * 1 / (2 + - (1))) with 2 by field.
    rewrite (fmod_PI _ 1) by lra.
    fl_step; fin_lra. }
  rewrite Hcode, Hspec.
  repeat split; trivial.
  - intros H; apply fin_inj in H; lra.
  - fl_eval; reflexivity.
Qed.

(** * The rotation matrix *)

Section Quaternion.

Variables r1 dl r2 : R.

Lemma quaternion_fin :
  quaternion (Fin r1) (Fin dl) (Fin r2)
  = (Fin (qw r1 dl r2), Fin (qx r1 dl r2), Fin (qy r1 dl r2), Fin (qz r1 dl r2)).
Proof. unfold quaternion; fl_eval; reflexivity. Qed.

Lemma sin2_cos2' (a : R) : sin a * sin a + cos a * cos a = 1.
Proof. pose proof (sin2_cos2 a) as H; unfold Rsqr in H; exact H. Qed.

(** The composed quaternion has norm one. *)
Lemma quaternion_unit :
  qw r1 dl r2 * qw r1 dl r2 + qx r1 dl r2 * qx r1 dl r2
  + qy r1 dl r2 * qy r1 dl r2 + qz r1 dl r2 * qz r1 dl r2 = 1.
Proof.
  unfold qw, qx, qy, qz.
  pose proof (sin2_cos2' (r1 / 2)) as H1.
  pose proof (sin2_cos2' (dl / 2)) as Hd.
  pose proof (sin2_cos2' (r2 / 2)) as H2.
  set (s1 := sin (r1 / 2)) in *; set (c1 := cos (r1 / 2)) in *.
  set (sd := sin (dl / 2)) in *; set (cd := cos (dl / 2)) in *.
  set (s2 := sin (r2 / 2)) in *; set (c2 := cos (r2 / 2)) in *.
  replace 1 with ((sd * sd + cd * cd) * (s1 * s1 + c1 * c1) * (s2 * s2 + c2 * c2))
    by (rewrite H1, Hd, H2; ring).
  ring.
Qed.

Lemma quaternion_axis_zero :
  qw r1 dl r2 * qw r1 dl r2 = 1 ->
  qx r1 dl r2 = 0 /\ qy r1 dl r2 = 0 /\ qz r1 dl r2 = 0.
Proof.
  intros Hw; pose proof quaternion_unit as Hu.
  repeat split; nra.
Qed.

End Quaternion.

(** The angle of a quaternion is zero only for [w = 1] and [w = -1]. *)
Lemma quaternion_angle_zero (w : R) :
  quaternion_angle (Fin w) = Fin 0 -> w * w = 1.
Proof.
  unfold quaternion_angle, Fl.acos.
  destruct (Fl.Rleb (-1) w) eqn:Hlo; [| discriminate].
  destruct (Fl.Rleb w 1) eqn:Hhi; [| discriminate].
  apply Rleb_spec in Hlo, Hhi.
  pose proof (cos_acos w (conj Hlo Hhi)) as Hcos.
  pose proof PI_RGT_0 as Hpi.
  fl_step.
  destruct (Fl.Rltb PI (2 * acos w)); intros H; apply fin_inj in H.
  - assert (Ha : acos w = PI) by lra.
    rewrite Ha, cos_PI in Hcos; nra.
  - assert (Ha : acos w = 0) by lra.
    rewrite Ha, cos_0 in Hcos; nra.
Qed.

Lemma matrix_of_quaternion_nan (w : float) :
  matrix_of_quaternion (w, NaN, NaN, NaN) = nan3.
Proof. reflexivity. Qed.

(** A quaternion without rotation has the axis [0 / sin 0]. *)
Lemma rescale_quaternion_degenerate (w : R) (d : float) :
  quaternion_angle (Fin w) = Fin 0 ->
  exists w', rescale_quaternion (Fin w, Fin 0, Fin 0, Fin 0) d
             = (w', NaN, NaN, NaN).
Proof.
  intros H; unfold rescale_quaternion; rewrite H.
  assert (Hs : Fl.div (Fin 0) (Fl.sin (Fl.div (Fin 0) (Fin 2))) = NaN).
  { fl_eval. replace (0 / 2) with 0 by lra.
    rewrite sin_0; fl_eval; reflexivity. }
  rewrite Hs; eexists; reflexivity.
Qed.

Lemma generate_rotation_matrix_degenerate (r1 dl r2 : R) (d : float) :
  quaternion_angle (Fin (qw r1 dl r2)) = Fin 0 ->
  generate_rotation_matrix (Fin r1) (Fin dl) (Fin r2) d = nan3.
Proof.
  intros H; unfold generate_rotation_matrix.
  rewrite quaternion_fin.
  destruct (quaternion_axis_zero r1 dl r2 (quaternion_angle_zero _ H))
    as (Hx & Hy & Hz).
  rewrite Hx, Hy, Hz.
  destruct (rescale_quaternion_degenerate _ d H) as [w' Hw'].
  rewrite Hw'; apply matrix_of_quaternion_nan.
Qed.

Lemma quaternion_w_fin (rho_1 delta rho_2 : float) (w : R) :
  quaternion_w rho_1 delta rho_2 = Fin w ->
  exists r1 dl r2,
    rho_1 = Fin r1 /\ delta = Fin dl /\ rho_2 = Fin r2 /\ w = qw r1 dl r2.
Proof.
  unfold quaternion_w, quaternion.
  destruct rho_1 as [r1| | |], delta as [dl| | |], rho_2 as [r2| | |];
    fl_eval; try discriminate.
  intros H; apply fin_inj in H.
  exists r1, dl, r2; repeat split; symmetry; exact H.
Qed.

Lemma nan3_not_identity : nan3 <> identity3.
Proof. discriminate. Qed.

(** C10. When the composed quaternion has the angle [2 * acos (w) = 0], as
    for [rho_1 = delta = rho_2 = 0], the divisor [sin (theta / 2)] of the
    three axis components is 0 and nothing guards the division: every
    entry of the matrix that [generate_rotation_matrix] returns is NaN, so
    the result is not the identity matrix, for every strength [d]. *)
Theorem generate_rotation_matrix_zero_angle (rho_1 delta rho_2 d : float) :
  Fl.mul (Fin 2) (Fl.acos (quaternion_w rho_1 delta rho_2)) = Fin 0 ->
  Fl.sin (Fl.div (quaternion_angle (quaternion_w rho_1 delta rho_2)) (Fin 2))
  = Fin 0
  /\ generate_rotation_matrix rho_1 delta rho_2 d = nan3
  /\ generate_rotation_matrix rho_1 delta rho_2 d <> identity3.
Proof.
  intros H.
  destruct (quaternion_w rho_1 delta rho_2) as [w| | |] eqn:Hw;
    try discriminate.
  destruct (quaternion_w_fin _ _ _ _ Hw) as (r1 & dl & r2 & -> & -> & -> & ->).
  assert (Hth : quaternion_angle (Fin (qw r1 dl r2)) = Fin 0).
  { unfold quaternion_angle; rewrite H.
    pose proof PI_RGT_0; fl_eval; reflexivity. }
  assert (Hnan : generate_rotation_matrix (Fin r1) (Fin dl) (Fin r2) d = nan3)
    by (apply generate_rotation_matrix_degenerate; exact Hth).
  rewrite Hth, Hnan; split; [| split; [reflexivity | apply nan3_not_identity]].
  fl_rw; replace (0 / 2) with 0 by lra; rewrite sin_0; reflexivity.
Qed.

Lemma zero_angles_w : quaternion_w (Fin 0) (Fin 0) (Fin 0) = Fin 1.
Proof.
  unfold quaternion_w; rewrite quaternion_fin; cbn [fst]; unfold qw.
  replace (0 / 2) with 0 by lra; rewrite sin_0, cos_0; f_equal; lra.
Qed.

Lemma generate_rotation_matrix_zero_angle_witness :
  Fl.mul (Fin 2) (Fl.acos (quaternion_w (Fin 0) (Fin 0) (Fin 0))) = Fin 0
  /\ Fl.sin (Fl.div (quaternion_angle (quaternion_w (Fin 0) (Fin 0) (Fin 0)))
                    (Fin 2)) = Fin 0
  /\ generate_rotation_matrix (Fin 0) (Fin 0) (Fin 0) (Fin 0) = nan3
  /\ generate_rotation_matrix (Fin 0) (Fin 0) (Fin 0) (Fin 0) <> identity3.
Proof.
  assert (H : Fl.mul (Fin 2) (Fl.acos (quaternion_w (Fin 0) (Fin 0) (Fin 0)))
              = Fin 0).
  { rewrite zero_angles_w; fl_eval; rewrite acos_1; f_equal; lra. }
  split; [exact H |].
  apply (generate_rotation_matrix_zero_angle (Fin 0) (Fin 0) (Fin 0) (Fin 0) H).
Defined.

(** ** Quaternions that do rotate *)

Lemma qw_bounds (r1 dl r2 : R) : -1 <= qw r1 dl r2 <= 1.
Proof. pose proof (quaternion_unit r1 dl r2); split; nra. Qed.

Lemma strength_fin (d : R) : exists k, strength (Fin d) = Fin k.
Proof.
  unfold strength, compression; fl_step.
  destruct (Fl.Rleb d 0) eqn:Hd; [eexists; reflexivity |].
  assert (0 < d).
  { destruct (Rle_dec d 0) as [Hle|Hgt]; [| lra].
    rewrite (Rleb_true _ _ Hle) in Hd; discriminate. }
  fl_eval; eexists; reflexivity.
Qed.

(** The matrix of a quaternion of norm one is a rotation matrix. *)
Lemma matrix_of_unit_quaternion (w x y z : R) :
  w * w + x * x + y * y + z * z = 1 ->
  is_rotation (matrix_of_quaternion (Fin w, Fin x, Fin y, Fin z)).
Proof.
  intros Hu; split.
  - unfold gram, matrix_of_quaternion, identity3; cbn [map seq]; fl_step.
    fin_by ltac:(nsatz).
  - unfold det3, matrix_of_quaternion; fl_step.
    fin_by ltac:(nsatz).
Qed.

(** Decomposing and composing again keeps the axis [(x, y, z) / s], with
    [s^2 = 1 - w^2], and puts some angle [t]. *)
Lemma rescale_quaternion_fin (w x y z k : R) (d : float) :
  -1 <= w <= 1 -> w * w <> 1 -> strength d = Fin k ->
  exists t s,
    s * s = 1 - w * w
    /\ rescale_quaternion (Fin w, Fin x, Fin y, Fin z) d
       = (Fin (cos (t / 2)), Fin (x / s * sin (t / 2)),
          Fin (y / s * sin (t / 2)), Fin (z / s * sin (t / 2))).
Proof.
  intros Hw Hnd Hk.
  unfold rescale_quaternion, quaternion_angle; rewrite Hk.
  pose proof (cos_acos w Hw) as Hcos.
  unfold Fl.acos; fl_rw.
  set (theta := if Fl.Rltb PI (2 * acos w) then _ else _).
  assert (Hth : exists th, theta = Fin th /\ sin (th / 2) * sin (th / 2) = 1 - w * w).
  { subst theta; destruct (Fl.Rltb PI (2 * acos w)); eexists;
      (split; [reflexivity |]).
    - replace ((2 * acos w - 2 * PI) / 2) with (acos w - PI) by lra.
      rewrite sin_minus, sin_PI, cos_PI, Hcos.
      pose proof (sin2_cos2' (acos w)) as H; rewrite Hcos in H; nra.
    - replace (2 * acos w / 2) with (acos w) by lra.
      pose proof (sin2_cos2' (acos w)) as H; rewrite Hcos in H; nra. }
  destruct Hth as (th & -> & Hs).
  assert (Hs0 : sin (th / 2) <> 0) by nra.
  fl_rw.
  set (tc := if Fl.Rltb (9 / 10 * PI) (th * k) then _ else _).
  assert (Htc : exists t, tc = Fin t).
  { subst tc; destruct (Fl.Rltb _ _); [eexists; reflexivity |].
    destruct (Fl.Rltb _ _); eexists; reflexivity. }
  destruct Htc as (t & ->).
  exists t, (sin (th / 2)); split; [exact Hs |].
  fl_rw; reflexivity.
Qed.

(** For real angles, a real strength and a quaternion that does rotate, the
    result of [generate_rotation_matrix] is a rotation matrix. *)
Lemma generate_rotation_matrix_is_rotation (r1 dl r2 d : R) :
  qw r1 dl r2 * qw r1 dl r2 <> 1 ->
  is_rotation (generate_rotation_matrix (Fin r1) (Fin dl) (Fin r2) (Fin d)).
Proof.
  intros Hnd; unfold generate_rotation_matrix; rewrite quaternion_fin.
  destruct (strength_fin d) as [k Hk].
  destruct (rescale_quaternion_fin _ (qx r1 dl r2) (qy r1 dl r2) (qz r1 dl r2)
                                   k (Fin d) (qw_bounds r1 dl r2) Hnd Hk)
    as (t & s & Hs & ->).
  apply matrix_of_unit_quaternion.
  pose proof (quaternion_unit r1 dl r2) as Hu.
  pose proof (sin2_cos2' (t / 2)) as Ht.
  assert (Hs0 : s <> 0) by nra.
  set (w := qw r1 dl r2) in *; set (x := qx r1 dl r2) in *.
  set (y := qy r1 dl r2) in *; set (z := qz r1 dl r2) in *.
  assert (Hax : x / s * (x / s) + y / s * (y / s) + z / s * (z / s) = 1).
  { field_simplify_eq; [nra | assumption]. }
  set (x' := x / s) in *; set (y' := y / s) in *; set (z' := z / s) in *.
  nra.
Qed.

(** ** The matrix of the comments: [R_y(rho_2) * R_x(delta) * R_y(rho_1)] *)

Lemma cos_double (a : R) : cos a = cos (a / 2) * cos (a / 2) - sin (a / 2) * sin (a / 2).
Proof. rewrite <- cos_2a; f_equal; lra. Qed.

Lemma sin_double (a : R) : sin a = 2 * sin (a / 2) * cos (a / 2).
Proof. rewrite <- sin_2a; f_equal; lra. Qed.

Lemma matrix_of_composed_quaternion (r1 dl r2 : R) :
  matrix_of_quaternion
    (Fin (qw r1 dl r2), Fin (qx r1 dl r2), Fin (qy r1 dl r2), Fin (qz r1 dl r2))
  = rotation_y_x_y r1 dl r2.
Proof.
  unfold matrix_of_quaternion, rotation_y_x_y; fl_rw.
  rewrite (cos_double r1), (sin_double r1), (cos_double dl), (sin_double dl),
    (cos_double r2), (sin_double r2).
  unfold qw, qx, qy, qz.
  pose proof (sin2_cos2' (r1 / 2)) as H1.
  pose proof (sin2_cos2' (dl / 2)) as Hd.
  pose proof (sin2_cos2' (r2 / 2)) as H2.
  set (s1 := sin (r1 / 2)) in *; set (c1 := cos (r1 / 2)) in *.
  set (sd := sin (dl / 2)) in *; set (cd := cos (dl / 2)) in *.
  set (s2 := sin (r2 / 2)) in *; set (c2 := cos (r2 / 2)) in *.
  fin_by ltac:(nsatz).
Qed.

Lemma acos_small (w : R) : 1 / 2 <= w < 1 -> 0 < acos w <= PI / 3.
Proof.
  intros Hw.
  assert (Hb : -1 <= w <= 1) by lra.
  pose proof (acos_bound w) as Ha.
  pose proof (cos_acos w Hb) as Hc.
  pose proof PI_RGT_0 as Hpi.
  split.
  - destruct (Req_dec_T (acos w) 0) as [H0|H0]; [| lra].
    rewrite H0, cos_0 in Hc; lra.
  - destruct (Rle_dec (acos w) (PI / 3)) as [Hle|Hgt]; [assumption |].
    assert (Hlt : cos (acos w) < cos (PI / 3))
      by (apply cos_decreasing_1; lra).
    rewrite cos_PI3 in Hlt; lra.
Qed.

(** Without strength ([d = 0]) and for a quaternion with [1/2 <= w < 1], a
    rotation by at most [2 pi / 3] that is not the identity, the result is
    the matrix that the comment of the code names. *)
Lemma generate_rotation_matrix_exact (r1 dl r2 : R) :
  1 / 2 <= qw r1 dl r2 < 1 ->
  generate_rotation_matrix (Fin r1) (Fin dl) (Fin r2) (Fin 0)
  = rotation_y_x_y r1 dl r2.
Proof.
  intros Hw; unfold generate_rotation_matrix.
  rewrite quaternion_fin, <- matrix_of_composed_quaternion.
  f_equal.
  set (w := qw r1 dl r2) in *.
  assert (Hb : -1 <= w <= 1) by lra.
  pose proof (acos_small w Hw) as Ha.
  pose proof (cos_acos w Hb) as Hc.
  pose proof PI_RGT_0 as Hpi.
  assert (Hs : 0 < sin (acos w)) by (apply sin_gt_0; lra).
  unfold rescale_quaternion, quaternion_angle, strength, Fl.acos; fl_rw.
  replace (2 * acos w / 2) with (acos w) by lra.
  assert (Hs0 : sin (acos w) <> 0) by lra.
  fl_rw.
  replace (2 * acos w * (0 + 1) / 2) with (acos w) by lra.
  rewrite Hc.
  fin_by ltac:(field; assumption).
Qed.

(** C9. Specified: for every triple of angles and [d = 0] the matrix of
    [generate_rotation_matrix] is orthogonal with determinant one.  This
    holds whenever the composed quaternion does rotate
    ([generate_rotation_matrix_is_rotation]), and the comment of the code
    states the matrix for [d = 0].  For the angles [(0, 0, 0)] the code
    divides [0] by [sin 0]: every entry of the matrix is NaN, so is every
    entry of the product of its transpose with it and its determinant. *)
Theorem generate_rotation_matrix_of_zero_angles :
  generate_rotation_matrix (Fin 0) (Fin 0) (Fin 0) (Fin 0) = nan3
  /\ gram (generate_rotation_matrix (Fin 0) (Fin 0) (Fin 0) (Fin 0)) = nan3
  /\ det3 (generate_rotation_matrix (Fin 0) (Fin 0) (Fin 0) (Fin 0)) = NaN
  /\ ~ is_rotation (generate_rotation_matrix (Fin 0) (Fin 0) (Fin 0) (Fin 0)).
Proof.
  assert (H : generate_rotation_matrix (Fin 0) (Fin 0) (Fin 0) (Fin 0) = nan3).
  { apply generate_rotation_matrix_degenerate.
    pose proof zero_angles_w as Hw.
    unfold quaternion_w in Hw; rewrite quaternion_fin in Hw; cbn [fst] in Hw.
    apply fin_inj in Hw; rewrite Hw.
    pose proof PI_RGT_0.
    unfold quaternion_angle; fl_eval; rewrite acos_1; fl_eval.
    f_equal; lra. }
  rewrite H; repeat split; try reflexivity.
  intros [Hg _]; discriminate Hg.
Qed.

(** * Scenario A: the axis-aligned rectangle *)

Lemma generate_rotation_matrix_nan_delta (rho_1 rho_2 d : float) :
  generate_rotation_matrix rho_1 NaN rho_2 d = nan3.
Proof.
  unfold generate_rotation_matrix, quaternion, rescale_quaternion.
  cbn [Fl.div Fl.sin Fl.cos]; nan_prop.
  apply matrix_of_quaternion_nan.
Qed.

Lemma normalize_points_plain (a b c d : R) :
  normalize_points [Fin a; Fin b; Fin c; Fin d] 4 (Fin 1) (Fin 0)
  = [Fin a; Fin b; Fin c; Fin d].
Proof. list_step; fl_step; fin_lra. Qed.

(** The two verticals are parallel: the vanishing point is [(0/0, 1/0)]. *)
Lemma scenario_A_intersection :
  intersection scenario_A_x scenario_A_y = (NaN, PInf).
Proof. unfold intersection, scenario_A_x, scenario_A_y; fl_eval; reflexivity. Qed.

Lemma scenario_A_vertex :
  find_vertex scenario_A_x scenario_A_y (Fin 1)
  = mkLocals (Fin 0) (Fin 0) NaN PInf (Fin 1).
Proof.
  unfold find_vertex.
  replace (slice scenario_A_x 0 4) with scenario_A_x by reflexivity.
  replace (slice scenario_A_y 0 4) with scenario_A_y by reflexivity.
  rewrite scenario_A_intersection.
  unfold scenario_A_x, scenario_A_y; list_step; fl_eval.
  f_equal; fin_lra.
Qed.

Lemma scenario_A_angles (refs : angle_refs) :
  calculate_angles scenario_A_x scenario_A_y (Fin 1) refs
  = mkAngles NaN NaN (Fin 0) (Fin 0)
             (center_of_control_points_x refs) (center_of_control_points_y refs).
Proof.
  unfold calculate_angles; rewrite scenario_A_vertex.
  unfold direction, normalize, rotate_rho_delta.
  unfold scenario_A_x, scenario_A_y; list_step.
  cbn [center_x center_y x_v y_v f_local]; fl_eval.
  rewrite determine_rho_h_value; unfold rotate_rho_delta; fl_eval.
  reflexivity.
Qed.

Lemma scenario_A_solve (uninit : angle_refs) :
  solve_angles (plain_modifier (Fin 1)) scenario_A_x scenario_A_y uninit
  = mkAngles NaN NaN (Fin 0) (Fin 0)
             (center_of_control_points_x uninit)
             (center_of_control_points_y uninit).
Proof.
  unfold solve_angles, plain_modifier; cbn [f_normalized NormScale CenterX CenterY].
  unfold scenario_A_x, scenario_A_y; cbn [length].
  rewrite !normalize_points_plain.
  apply scenario_A_angles.
Qed.

Lemma scenario_A_center_coords (cx cy : float) :
  center_coords (plain_modifier (Fin 1))
                (mkAngles NaN NaN (Fin 0) (Fin 0) cx cy) (Fin 0)
  = [NaN; NaN; NaN].
Proof.
  unfold center_coords, choose_center, plain_modifier, rotate_rho_delta_rho_h.
  cbn [rho delta rho_h f_normalized].
  rewrite generate_rotation_matrix_nan_delta.
  unfold nan3; fl_eval; reflexivity.
Qed.

Lemma scenario_A_parameter_block (cx cy : float) :
  parameter_block (plain_modifier (Fin 1))
                  (mkAngles NaN NaN (Fin 0) (Fin 0) cx cy) (Fin 0)
  = scenario_A_block.
Proof.
  unfold parameter_block; rewrite scenario_A_center_coords.
  cbn [rho delta rho_h alpha Fl.neg].
  rewrite generate_rotation_matrix_nan_delta.
  unfold append_alpha, central_projection, rotate_shift, nan3, plain_modifier.
  cbn [f_normalized]; fl_eval; reflexivity.
Qed.

(** C8. Specified: in scenario A the call succeeds and the registered
    mapping leaves [(0, 0)] fixed and moves [(0.1, 0)] by less than 1e-5.
    The call does succeed, but the two verticals of the rectangle are
    parallel, so [intersection] divides by zero and the vanishing point is
    [(0/0, 1/0)]; the angles [rho] and [delta] are NaN, no comparison
    stops the call, and every number of the registered block except the
    focal length is NaN.  The registered callback maps [(0, 0)] and
    [(0.1, 0)] to [(NaN, NaN)], and so does the mapping of the
    specification under this block. *)
Theorem scenario_A_registers_nan (uninit : angle_refs) :
  let res := enable_perspective_correction (plain_modifier (Fin 1))
               scenario_A_x scenario_A_y (Fin 0) uninit in
  intersection scenario_A_x scenario_A_y = (NaN, PInf)
  /\ fst res = true
  /\ CoordCallbacks (snd res)
     = [mkCallback ModifyCoord_Perspective_Correction 200 scenario_A_block]
  /\ ModifyCoord_Perspective_Correction scenario_A_block [Fin 0; Fin 0] 1
     = [NaN; NaN]
  /\ ModifyCoord_Perspective_Correction scenario_A_block [Fin (1 / 10); Fin 0] 1
     = [NaN; NaN]
  /\ spec_reverse_map scenario_A_block (Fin 0) (Fin 0) = (NaN, NaN)
  /\ spec_reverse_map scenario_A_block (Fin (1 / 10)) (Fin 0) = (NaN, NaN).
Proof.
  cbv zeta; split; [apply scenario_A_intersection |].
  unfold enable_perspective_correction.
  rewrite scenario_A_solve.
  replace (clamp_d (Fin 0)) with (Fin 0) by (unfold clamp_d; fl_eval; reflexivity).
  rewrite scenario_A_center_coords, scenario_A_parameter_block.
  unfold plain_modifier, scenario_A_x; cbn [f_normalized length]; list_step.
  fl_eval.
  repeat split; reflexivity.
Qed.

(** * Evaluation on finite numbers *)

Lemma rotate_rho_delta_fin (r d x y z : R) :
  rotate_rho_delta (Fin r) (Fin d) (Fin x) (Fin y) (Fin z)
  = [Fin (cos r * x + 0 * y + sin r * z);
     Fin (sin r * sin d * x + cos d * y + - cos r * sin d * z);
     Fin (- sin r * cos d * x + sin d * y + cos r * cos d * z)].
Proof. unfold rotate_rho_delta; fl_rw; reflexivity. Qed.

Lemma rotate_rho_delta_rho_h_fin (r d h x y z : R) :
  rotate_rho_delta_rho_h (Fin r) (Fin d) (Fin h) (Fin x) (Fin y) (Fin z)
  = [Fin ((cos r * cos h - sin r * cos d * sin h) * x + sin d * sin h * y
          + (sin r * cos h + cos r * cos d * sin h) * z);
     Fin (sin r * sin d * x + cos d * y + - cos r * sin d * z);
     Fin ((- cos r * sin h - sin r * cos d * cos h) * x + sin d * cos h * y
          + (- sin r * sin h + cos r * cos d * cos h) * z)].
Proof. unfold rotate_rho_delta_rho_h; fl_rw; reflexivity. Qed.

(** For finite arguments the result is 0 unless the rotated [y_0] is 0. *)
Lemma determine_rho_h_fin (r d x0 x1 y0 y1 f cx cy : R) :
  sin r * sin d * x0 + cos d * y0 + - cos r * sin d * f <> 0 ->
  determine_rho_h (Fin r) (Fin d) [Fin x0; Fin x1] [Fin y0; Fin y1]
                  (Fin f) (Fin cx) (Fin cy)
  = Fin 0.
Proof.
  intros Hy; rewrite determine_rho_h_value.
  cbn [vget nth]; rewrite rotate_rho_delta_fin; cbn [vget nth].
  rewrite eqb_fin, Reqb_false by assumption; reflexivity.
Qed.

Lemma normalize_fin (a b : R) :
  0 < a * a + b * b ->
  normalize (Fin a) (Fin b)
  = [Fin (a / sqrt (a * a + b * b)); Fin (b / sqrt (a * a + b * b))].
Proof.
  intros H; unfold normalize; fl_rw.
  assert (sqrt (a * a + b * b) <> 0)
    by (pose proof (sqrt_lt_R0 _ H); lra).
  fl_rw; reflexivity.
Qed.

Lemma sqrt_of_square (a b : R) : 0 <= b -> a = b * b -> sqrt a = b.
Proof. intros Hb ->; apply sqrt_square; assumption. Qed.

(** The nine assignments on a matrix of finite numbers: the second column
    is computed from the new first column. *)
Lemma append_alpha_fin (a00 a01 a02 a10 a11 a12 a20 a21 a22 al : R) :
  append_alpha [[Fin a00; Fin a01; Fin a02]; [Fin a10; Fin a11; Fin a12];
                [Fin a20; Fin a21; Fin a22]] (Fin al)
  = [[Fin (cos al * a00 + sin al * a01);
      Fin (- sin al * (cos al * a00 + sin al * a01) + cos al * a01);
      Fin a02];
     [Fin (cos al * a10 + sin al * a11);
      Fin (- sin al * (cos al * a10 + sin al * a11) + cos al * a11);
      Fin a12];
     [Fin (cos al * a20 + sin al * a21);
      Fin (- sin al * (cos al * a20 + sin al * a21) + cos al * a21);
      Fin a22]].
Proof. unfold append_alpha; fl_rw; reflexivity. Qed.

Lemma spec_append_alpha_fin (a00 a01 a02 a10 a11 a12 a20 a21 a22 al : R) :
  spec_append_alpha [[Fin a00; Fin a01; Fin a02]; [Fin a10; Fin a11; Fin a12];
                     [Fin a20; Fin a21; Fin a22]] (Fin al)
  = [[Fin (cos al * a00 + sin al * a01); Fin (- sin al * a00 + cos al * a01);
      Fin a02];
     [Fin (cos al * a10 + sin al * a11); Fin (- sin al * a10 + cos al * a11);
      Fin a12];
     [Fin (cos al * a20 + sin al * a21); Fin (- sin al * a20 + cos al * a21);
      Fin a22]].
Proof. unfold spec_append_alpha; cbn [map seq]; fl_rw; reflexivity. Qed.

Lemma parameter_block_focal_length (m : lfModifier) (r : angle_refs) (d : float) :
  vget (parameter_block m r d) 9 = f_normalized m.
Proof.
  unfold parameter_block.
  destruct (central_projection _ _) as [Da Db].
  destruct (rotate_shift _ _ _) as [Da' Db'].
  reflexivity.
Qed.

(** * Scenario C: eight points and the focal length *)

Lemma normalize_points_plain8 (a b c d e f g h : R) :
  normalize_points [Fin a; Fin b; Fin c; Fin d; Fin e; Fin f; Fin g; Fin h]
                   8 (Fin 1) (Fin 0)
  = [Fin a; Fin b; Fin c; Fin d; Fin e; Fin f; Fin g; Fin h].
Proof. list_step; fl_step; fin_lra. Qed.

Lemma inv_sqrt2_pos : 0 < 1 / sqrt 2.
Proof.
  assert (0 < sqrt 2) by (apply sqrt_lt_R0; lra).
  apply Rdiv_lt_0_compat; lra.
Qed.

Lemma inv_sqrt2_sq : 1 / sqrt 2 * (1 / sqrt 2) = 1 / 2.
Proof.
  assert (0 < sqrt 2) by (apply sqrt_lt_R0; lra).
  pose proof (sqrt_sqrt 2 ltac:(lra)).
  field_simplify_eq; lra.
Qed.

(** The refined focal length: the square root of [- x_h x_v - y_h y_v]. *)
Lemma refine_vertex :
  find_vertex refine_x refine_y (Fin 1)
  = mkLocals (Fin (-1/8)) (Fin (-3/64)) (Fin 0) (Fin (-3/2)) (Fin (3/2)).
Proof.
  unfold find_vertex, refine_x, refine_y; list_step.
  unfold intersection; fl_rw.
  rewrite (sqrt_of_square _ (3 / 2)) by lra.
  f_equal; fin_lra.
Qed.

Lemma radicand_17_4_a : (0 - -1 / 2) * (0 - -1 / 2) + (-3 / 2 - 1 / 2) * (-3 / 2 - 1 / 2) = 17 / 4.
Proof. lra. Qed.

Lemma radicand_17_4_b : (0 - 1 / 2) * (0 - 1 / 2) + (-3 / 2 - 1 / 2) * (-3 / 2 - 1 / 2) = 17 / 4.
Proof. lra. Qed.

Lemma refine_angles (refs : angle_refs) :
  calculate_angles refine_x refine_y (Fin 1) refs
  = mkAngles (Fin 0) (Fin (PI / 4)) (Fin 0) (Fin 0)
             (center_of_control_points_x refs) (center_of_control_points_y refs).
Proof.
  pose proof inv_sqrt2_pos as Hh.
  unfold calculate_angles; rewrite refine_vertex.
  cbn [center_x center_y x_v y_v f_local].
  unfold direction, refine_x, refine_y; list_step.
  cbn [center_x center_y x_v y_v f_local].
  fl_rw.
  replace (- 0 / (3 / 2)) with 0 by lra; rewrite atan_0.
  rewrite (sqrt_of_square (0 * 0 + 3 / 2 * (3 / 2)) (3 / 2)) by lra.
  fl_rw.
  replace (- (-3 / 2) / (3 / 2)) with 1 by lra; rewrite atan_1.
  replace (PI / 2 - PI / 4) with (PI / 4) by lra.
  rewrite rotate_rho_delta_fin; fl_rw.
  rewrite sin_0, cos_0, sin_PI4, cos_PI4.
  decide_R.
  rewrite !normalize_fin by lra; fl_rw.
  rewrite radicand_17_4_a, radicand_17_4_b.
  assert (Hn : 0 < sqrt (17 / 4)) by (apply sqrt_lt_R0; lra).
  rewrite Rltb_false.
  2:{ replace ((0 - -1 / 2) / sqrt (17 / 4) + (0 - 1 / 2) / sqrt (17 / 4))
        with 0 by (field; lra).
      rewrite Rabs_R0.
      pose proof (Rabs_pos ((-3 / 2 - 1 / 2) / sqrt (17 / 4)
                            + (-3 / 2 - 1 / 2) / sqrt (17 / 4))).
      lra. }
  rewrite !determine_rho_h_fin
    by (rewrite sin_0, cos_0, sin_PI4, cos_PI4; lra).
  reflexivity.
Qed.

Lemma cos_PI8_bounds : 1 / 2 <= cos (PI / 8) < 1.
Proof.
  pose proof PI_RGT_0 as Hpi.
  split.
  - rewrite <- cos_PI3; left; apply cos_decreasing_1; lra.
  - rewrite <- cos_0; apply cos_decreasing_1; lra.
Qed.

(** The forward and the backward rotation of scenario C: the angle of the
    quaternion is [pi / 4]. *)
Lemma qw_pitch_PI4 : qw 0 (PI / 4) 0 = cos (PI / 8).
Proof.
  unfold qw; replace (0 / 2) with 0 by lra; rewrite sin_0, cos_0.
  replace (PI / 4 / 2) with (PI / 8) by lra; ring.
Qed.

Lemma refine_solve (uninit : angle_refs) :
  solve_angles (plain_modifier (Fin 1)) refine_x refine_y uninit
  = mkAngles (Fin 0) (Fin (PI / 4)) (Fin 0) (Fin 0)
             (center_of_control_points_x uninit)
             (center_of_control_points_y uninit).
Proof.
  unfold solve_angles, plain_modifier; cbn [f_normalized NormScale CenterX CenterY].
  unfold refine_x, refine_y; cbn [length].
  rewrite !normalize_points_plain8.
  apply refine_angles.
Qed.

Lemma refine_center_coords (cx cy : float) :
  center_coords (plain_modifier (Fin 1))
                (mkAngles (Fin 0) (Fin (PI / 4)) (Fin 0) (Fin 0) cx cy) (Fin 0)
  = [Fin 0; Fin (- (1 / sqrt 2)); Fin (1 / sqrt 2)].
Proof.
  pose proof inv_sqrt2_pos as Hh.
  pose proof inv_sqrt2_sq as Hh2.
  unfold center_coords, choose_center, plain_modifier.
  cbn [rho delta rho_h f_normalized].
  rewrite rotate_rho_delta_rho_h_fin.
  rewrite generate_rotation_matrix_exact
    by (rewrite qw_pitch_PI4; apply cos_PI8_bounds).
  unfold rotation_y_x_y; fl_rw.
  rewrite sin_0, cos_0, sin_PI4, cos_PI4.
  match goal with
  | |- context [Fl.Rleb ?z 0] => replace z with (1 / sqrt 2) by lra
  end.
  rewrite Rleb_false by lra.
  assert (Hs : 1 / sqrt 2 <> 0) by lra.
  fl_rw.
  rewrite Rltb_false.
  2:{ assert (0 < sqrt 2) by (apply sqrt_lt_R0; lra).
      assert (E : 1 / (1 / sqrt 2) * (1 / sqrt 2) = 1) by (field; lra).
      assert (1 / 10 <= 1 / sqrt 2) by nra.
      nra. }
  fl_rw; fin_lra.
Qed.

Lemma refine_enable (uninit : angle_refs) :
  enable_perspective_correction (plain_modifier (Fin 1)) refine_x refine_y
                                (Fin 0) uninit
  = (true,
     AddCoordCallback (plain_modifier (Fin 1))
       ModifyCoord_Perspective_Correction 200
       (parameter_block (plain_modifier (Fin 1))
          (mkAngles (Fin 0) (Fin (PI / 4)) (Fin 0) (Fin 0)
                    (center_of_control_points_x uninit)
                    (center_of_control_points_y uninit))
          (Fin 0))).
Proof.
  pose proof inv_sqrt2_pos as Hh.
  unfold enable_perspective_correction.
  rewrite refine_solve.
  replace (clamp_d (Fin 0)) with (Fin 0) by (unfold clamp_d; fl_eval; reflexivity).
  rewrite refine_center_coords.
  change (f_normalized (plain_modifier (Fin 1))) with (Fin 1).
  change (length refine_x) with 8%nat.
  list_step; fl_rw; reflexivity.
Qed.

(** C2. Specified: with eight points and a radicand that is not negative
    the refined focal length is what slot 9 of the parameter block holds.
    [calculate_angles] receives [f_normalized] by value: the refined
    number is used for [rho], [delta] and [rho_h] and is lost at the
    return.  Slot 9 is the focal length of the modifier on every successful
    call.  For the eight points of [refine_x], [refine_y] and the supplied
    focal length 1 the refined focal length is [3/2], the call succeeds and
    slot 9 holds 1. *)
Theorem refined_focal_length_is_not_stored (uninit : angle_refs) :
  let res := enable_perspective_correction (plain_modifier (Fin 1))
               refine_x refine_y (Fin 0) uninit in
  (forall m x y d u,
      fst (enable_perspective_correction m x y d u) = true ->
      exists block,
        CoordCallbacks (snd (enable_perspective_correction m x y d u))
        = mkCallback ModifyCoord_Perspective_Correction 200 block
            :: CoordCallbacks m
        /\ vget block 9 = f_normalized m)
  /\ length refine_x = 8%nat
  /\ f_local (find_vertex refine_x refine_y (Fin 1)) = Fin (3 / 2)
  /\ fst res = true
  /\ exists block,
      CoordCallbacks (snd res)
      = [mkCallback ModifyCoord_Perspective_Correction 200 block]
      /\ vget block 9 = Fin 1.
Proof.
  cbv zeta; split; [| split; [reflexivity | split]].
  - intros m x y d u; unfold enable_perspective_correction.
    destruct (_ || _ || _); [discriminate |].
    destruct (Fl.leb _ _); [discriminate |].
    intros _; eexists; split; [reflexivity |].
    apply parameter_block_focal_length.
  - rewrite refine_vertex; reflexivity.
  - rewrite refine_enable; cbn [fst snd].
    split; [reflexivity |].
    eexists; split; [reflexivity |].
    apply parameter_block_focal_length.
Qed.

(** * Lines that meet to the side: the rotation by [alpha] *)

(** The pitch of the example: [delta = pi/2 - atan (1 / sqrt 2)], with
    [sin delta = sqrt (2/3)] and [cos delta = sqrt (1/3)]. *)
Lemma sideways_pitch :
  let d := PI / 2 - atan (1 / sqrt 2) in
  0 < d < PI / 2 /\ 0 < sin d /\ 0 < cos d
  /\ sin d * sin d = 2 / 3 /\ cos d * cos d = 1 / 3
  /\ cos d = 1 / sqrt 2 * sin d.
Proof.
  cbv zeta.
  pose proof inv_sqrt2_pos as Hh.
  pose proof inv_sqrt2_sq as Hh2.
  pose proof PI_RGT_0 as Hpi.
  set (T := atan (1 / sqrt 2)).
  assert (HT : 0 < T < PI / 2).
  { split; [| apply atan_bound].
    unfold T; rewrite <- atan_0; apply atan_increasing; assumption. }
  rewrite sin_shift, cos_shift.
  assert (Hc : 0 < cos T) by (apply cos_gt_0; lra).
  assert (Hs : 0 < sin T) by (apply sin_gt_0; lra).
  assert (Htan : sin T = 1 / sqrt 2 * cos T).
  { pose proof (tan_atan (1 / sqrt 2)) as Ht; fold T in Ht.
    unfold tan in Ht; rewrite <- Ht; field; lra. }
  pose proof (sin2_cos2' T) as Hu.
  repeat split; try lra; try nra.
Qed.

Lemma sideways_vertex :
  find_vertex sideways_x sideways_y (Fin 1)
  = mkLocals (Fin (7/8)) (Fin (1/32)) (Fin (-1)) (Fin (-1)) (Fin 1).
Proof.
  unfold find_vertex, sideways_x, sideways_y; list_step.
  unfold intersection; fl_rw.
  f_equal; fin_lra.
Qed.

Lemma sideways_angles (refs : angle_refs) :
  calculate_angles sideways_x sideways_y (Fin 1) refs
  = mkAngles (Fin (PI / 4)) (Fin (PI / 2 - atan (1 / sqrt 2))) (Fin 0)
             (Fin (PI / 2))
             (center_of_control_points_x refs) (center_of_control_points_y refs).
Proof.
  pose proof inv_sqrt2_pos as Hh.
  pose proof sideways_pitch as (Hd & Hs & Hc & Hs2 & Hc2 & Hcs); cbv zeta in *.
  pose proof PI_RGT_0 as Hpi.
  assert (Hr2 : 0 < sqrt 2) by (apply sqrt_lt_R0; lra).
  unfold calculate_angles; rewrite sideways_vertex.
  cbn [center_x center_y x_v y_v f_local].
  unfold direction, sideways_x, sideways_y; list_step.
  cbn [center_x center_y x_v y_v f_local].
  fl_rw.
  replace (- -1 / 1) with 1 by lra; rewrite atan_1.
  replace (-1 * -1 + 1 * 1) with 2 by lra.
  fl_rw.
  replace (- -1 / sqrt 2) with (1 / sqrt 2) by (field; lra).
  rewrite rotate_rho_delta_fin; fl_rw.
  rewrite sin_PI4, cos_PI4.
  set (d := PI / 2 - atan (1 / sqrt 2)) in *.
  set (h := 1 / sqrt 2) in *.
  rewrite Rltb_false by nra.
  rewrite !normalize_fin by lra.
  rewrite (sqrt_of_square ((-1 - 0) * (-1 - 0) + (-1 - -1 / 4) * (-1 - -1 / 4))
                          (5 / 4)) by lra.
  rewrite (sqrt_of_square ((-1 - 1 / 2) * (-1 - 1 / 2)
                           + (-1 - -3 / 8) * (-1 - -3 / 8)) (13 / 8)) by lra.
  fl_rw.
  rewrite !Rabs_left by lra.
  decide_R.
  rewrite !determine_rho_h_fin by (rewrite sin_PI4, cos_PI4; fold h; nra).
  reflexivity.
Qed.

Lemma qw_opp (r1 dl r2 : R) : qw (- r1) (- dl) (- r2) = qw r1 dl r2.
Proof.
  unfold qw.
  replace (- r1 / 2) with (- (r1 / 2)) by lra.
  replace (- dl / 2) with (- (dl / 2)) by lra.
  replace (- r2 / 2) with (- (r2 / 2)) by lra.
  rewrite !cos_neg, !sin_neg; ring.
Qed.

Lemma qw_sym (r1 dl r2 : R) : qw r1 dl r2 = qw r2 dl r1.
Proof. unfold qw; ring. Qed.

Lemma sideways_qw :
  1 / 2 <= qw (PI / 4) (PI / 2 - atan (1 / sqrt 2)) 0 < 1.
Proof.
  pose proof inv_sqrt2_pos as Hh.
  pose proof inv_sqrt2_sq as Hh2.
  pose proof sideways_pitch as (Hd & _); cbv zeta in Hd.
  pose proof PI_RGT_0 as Hpi.
  set (d := PI / 2 - atan (1 / sqrt 2)) in *.
  unfold qw; replace (0 / 2) with 0 by lra; rewrite sin_0, cos_0.
  replace (PI / 4 / 2) with (PI / 8) by lra.
  assert (H1 : 1 / sqrt 2 < cos (d / 2))
    by (rewrite <- cos_PI4; apply cos_decreasing_1; lra).
  assert (H2 : 1 / sqrt 2 < cos (PI / 8))
    by (rewrite <- cos_PI4; apply cos_decreasing_1; lra).
  pose proof (COS_bound (d / 2)) as H3.
  pose proof cos_PI8_bounds as H4.
  split; nra.
Qed.

Lemma sideways_solve (uninit : angle_refs) :
  solve_angles (plain_modifier (Fin 1)) sideways_x sideways_y uninit
  = mkAngles (Fin (PI / 4)) (Fin (PI / 2 - atan (1 / sqrt 2))) (Fin 0)
             (Fin (PI / 2))
             (center_of_control_points_x uninit)
             (center_of_control_points_y uninit).
Proof.
  unfold solve_angles, plain_modifier; cbn [f_normalized NormScale CenterX CenterY].
  unfold sideways_x, sideways_y; cbn [length].
  rewrite !normalize_points_plain.
  apply sideways_angles.
Qed.

Lemma sideways_center_coords (al cx cy : float) :
  center_coords (plain_modifier (Fin 1))
    (mkAngles (Fin (PI / 4)) (Fin (PI / 2 - atan (1 / sqrt 2))) (Fin 0) al cx cy)
    (Fin 0)
  = [Fin (1 / sqrt 2);
     Fin (- (1 / sqrt 2 * sin (PI / 2 - atan (1 / sqrt 2))));
     Fin (1 / sqrt 2 * cos (PI / 2 - atan (1 / sqrt 2)))].
Proof.
  pose proof inv_sqrt2_pos as Hh.
  pose proof inv_sqrt2_sq as Hh2.
  pose proof sideways_pitch as (Hd & Hs & Hc & Hs2 & Hc2 & Hcs); cbv zeta in *.
  unfold center_coords, choose_center, plain_modifier.
  cbn [rho delta rho_h f_normalized].
  rewrite rotate_rho_delta_rho_h_fin.
  rewrite generate_rotation_matrix_exact by apply sideways_qw.
  unfold rotation_y_x_y; fl_rw.
  rewrite sin_0, cos_0, sin_PI4, cos_PI4.
  set (d := PI / 2 - atan (1 / sqrt 2)) in *.
  set (h := 1 / sqrt 2) in *.
  match goal with
  | |- context [Fl.Rleb ?z 0] => replace z with (h * cos d) by lra
  end.
  assert (Hz : 0 < h * cos d) by nra.
  rewrite Rleb_false by lra.
  assert (Hz0 : h * cos d <> 0) by lra.
  fl_rw.
  rewrite Rltb_false.
  2:{ assert (E : 1 / (h * cos d) * (h * cos d) = 1) by (field; lra).
      assert (1 / 10 <= h * cos d) by nra.
      nra. }
  fl_rw; fin_lra.
Qed.

(** The block of the example: slot 1, the second entry of the first row of
    the matrix, and slot 11, the second coordinate of the shift, under the
    assignments of the code and under the rotation of the specification. *)
Lemma sideways_block (cx cy : float) :
  let r := mkAngles (Fin (PI / 4)) (Fin (PI / 2 - atan (1 / sqrt 2))) (Fin 0)
                    (Fin (PI / 2)) cx cy in
  exists v w v' w',
    vget (parameter_block (plain_modifier (Fin 1)) r (Fin 0)) 1 = Fin v
    /\ vget (spec_parameter_block (plain_modifier (Fin 1)) r (Fin 0)) 1 = Fin w
    /\ vget (parameter_block (plain_modifier (Fin 1)) r (Fin 0)) 11 = Fin v'
    /\ vget (spec_parameter_block (plain_modifier (Fin 1)) r (Fin 0)) 11 = Fin w'
    /\ v < 0 /\ w < 0 /\ v * v = 2 /\ w * w = 3 /\ w' < 0 < v'.
Proof.
  cbv zeta.
  pose proof inv_sqrt2_pos as Hh.
  pose proof inv_sqrt2_sq as Hh2.
  pose proof sideways_pitch as (Hd & Hs & Hc & Hs2 & Hc2 & Hcs); cbv zeta in *.
  unfold parameter_block, spec_parameter_block.
  rewrite sideways_center_coords.
  cbn [rho delta rho_h alpha]; rewrite !neg_fin.
  rewrite generate_rotation_matrix_exact
    by (rewrite qw_opp, qw_sym; apply sideways_qw).
  unfold rotation_y_x_y, central_projection, rotate_shift, spec_rotate_shift.
  rewrite append_alpha_fin, spec_append_alpha_fin.
  unfold plain_modifier; cbn [f_normalized].
  set (d := PI / 2 - atan (1 / sqrt 2)) in *.
  set (h := 1 / sqrt 2) in *.
  assert (Hz : 0 < h * cos d) by nra.
  assert (Hz0 : h * cos d <> 0) by lra.
  set (K := 1 / (h * cos d)).
  assert (HK : K * (h * cos d) = 1) by (unfold K; field; lra).
  assert (HK0 : K <> 0) by nra.
  assert (HKpos : 0 < K) by nra.
  fl_rw; fold K.
  rewrite sin_PI2, cos_PI2, !cos_neg, !sin_neg, cos_0, sin_0, sin_PI4, cos_PI4.
  fold h.
  assert (E1 : h * K * cos d = 1) by lra.
  assert (E2 : (h * K) * (h * K) = 3) by nra.
  assert (E3 : 0 < h * K) by nra.
  do 4 eexists.
  repeat (split; [reflexivity |]).
  assert (P : 0 < sin d * (h * K)) by (apply Rmult_lt_0_compat; assumption).
  assert (Q : sin d * (h * K) * (sin d * (h * K)) = 2) by nra.
  split; [| split; [| split; [| split; [| split]]]].
  - match goal with |- ?x < 0 => replace x with (- (sin d * (h * K))) by ring end.
    lra.
  - match goal with |- ?x < 0 => replace x with (- (h * K)) by ring end.
    lra.
  - match goal with
    | |- ?x * ?x = 2 => replace x with (- (sin d * (h * K))) by ring
    end.
    lra.
  - match goal with |- ?x * ?x = 3 => replace x with (- (h * K)) by ring end.
    lra.
  - match goal with |- ?x < 0 => replace x with (- h) by (field; assumption) end.
    lra.
  - match goal with
    | |- 0 < ?x => replace x with (h * sin d) by (field; assumption)
    end.
    nra.
Qed.

Lemma sideways_enable (uninit : angle_refs) :
  enable_perspective_correction (plain_modifier (Fin 1)) sideways_x sideways_y
                                (Fin 0) uninit
  = (true,
     AddCoordCallback (plain_modifier (Fin 1))
       ModifyCoord_Perspective_Correction 200
       (parameter_block (plain_modifier (Fin 1))
          (solve_angles (plain_modifier (Fin 1)) sideways_x sideways_y uninit)
          (Fin 0))).
Proof.
  pose proof inv_sqrt2_pos as Hh.
  pose proof sideways_pitch as (_ & _ & Hc & _); cbv zeta in Hc.
  unfold enable_perspective_correction.
  replace (clamp_d (Fin 0)) with (Fin 0) by (unfold clamp_d; fl_eval; reflexivity).
  rewrite sideways_solve, sideways_center_coords.
  change (f_normalized (plain_modifier (Fin 1))) with (Fin 1).
  change (length sideways_x) with 4%nat.
  list_step; fl_rw.
  rewrite Rleb_false by nra.
  reflexivity.
Qed.

(** C5. Specified: the packed matrix is the right product of the backward
    rotation with [R_z(alpha)], every new entry from the original entries,
    and the shift is rotated likewise.  The assignments of the code
    overwrite the first entry of a row (and [Delta_a]) before the second
    one reads it, so the second entry is [- sin alpha * new + cos alpha * old]
    with the new first entry.  For the four points of [sideways_x],
    [sideways_y] the solver finds [alpha = pi/2] and the call succeeds: in
    the registered block slot 1 is [- sqrt 2] where the specified product
    has [- sqrt 3], and slot 11 is positive where the specified rotated
    shift is negative. *)
Theorem alpha_rotation_reads_overwritten_entries (uninit : angle_refs) :
  let m := plain_modifier (Fin 1) in
  let res := enable_perspective_correction m sideways_x sideways_y (Fin 0) uninit in
  let r := solve_angles m sideways_x sideways_y uninit in
  alpha r = Fin (PI / 2)
  /\ fst res = true
  /\ CoordCallbacks (snd res)
     = [mkCallback ModifyCoord_Perspective_Correction 200
                   (parameter_block m r (Fin 0))]
  /\ exists v w v' w',
      vget (parameter_block m r (Fin 0)) 1 = Fin v
      /\ vget (spec_parameter_block m r (Fin 0)) 1 = Fin w
      /\ vget (parameter_block m r (Fin 0)) 11 = Fin v'
      /\ vget (spec_parameter_block m r (Fin 0)) 11 = Fin w'
      /\ v < 0 /\ w < 0 /\ v * v = 2 /\ w * w = 3 /\ w' < 0 < v'.
Proof.
  cbv zeta; rewrite sideways_enable, sideways_solve; cbn [alpha fst snd].
  repeat split; try reflexivity.
  apply sideways_block.
Qed.

(** * Lines that meet at the height of the optical axis *)

Lemma level_vertex :
  find_vertex level_x level_y (Fin 1)
  = mkLocals (Fin (7/8)) (Fin (33/32)) (Fin (-1)) (Fin 0) (Fin 1).
Proof.
  unfold find_vertex, level_x, level_y; list_step.
  unfold intersection; fl_rw.
  f_equal; fin_lra.
Qed.

Lemma level_angles (refs : angle_refs) :
  calculate_angles level_x level_y (Fin 1) refs
  = mkAngles (Fin (PI / 4)) (Fin (PI / 2)) (Fin 0) (Fin (PI / 2))
             (center_of_control_points_x refs) (center_of_control_points_y refs).
Proof.
  pose proof inv_sqrt2_pos as Hh.
  pose proof PI_RGT_0 as Hpi.
  assert (Hr2 : 0 < sqrt 2) by (apply sqrt_lt_R0; lra).
  unfold calculate_angles; rewrite level_vertex.
  cbn [center_x center_y x_v y_v f_local].
  unfold direction, level_x, level_y; list_step.
  cbn [center_x center_y x_v y_v f_local].
  fl_rw.
  replace (- -1 / 1) with 1 by lra; rewrite atan_1.
  replace (-1 * -1 + 1 * 1) with 2 by lra.
  fl_rw.
  replace (- 0 / sqrt 2) with 0 by (field; lra); rewrite atan_0.
  replace (PI / 2 - 0) with (PI / 2) by lra.
  rewrite rotate_rho_delta_fin; fl_rw.
  rewrite sin_PI4, cos_PI4, sin_PI2, cos_PI2.
  rewrite Rltb_false by lra.
  rewrite !normalize_fin by lra.
  rewrite (sqrt_of_square ((-1 - 0) * (-1 - 0) + (0 - 3 / 4) * (0 - 3 / 4))
                          (5 / 4)) by lra.
  rewrite (sqrt_of_square ((-1 - 1 / 2) * (-1 - 1 / 2)
                           + (0 - 5 / 8) * (0 - 5 / 8)) (13 / 8)) by lra.
  fl_rw.
  rewrite !Rabs_left by lra.
  decide_R.
  rewrite !determine_rho_h_fin
    by (rewrite sin_PI4, cos_PI4, sin_PI2, cos_PI2; lra).
  reflexivity.
Qed.

Lemma level_qw : 1 / 2 <= qw (PI / 4) (PI / 2) 0 < 1.
Proof.
  pose proof inv_sqrt2_pos as Hh.
  pose proof inv_sqrt2_sq as Hh2.
  pose proof PI_RGT_0 as Hpi.
  unfold qw; replace (0 / 2) with 0 by lra; rewrite sin_0, cos_0.
  replace (PI / 4 / 2) with (PI / 8) by lra.
  replace (PI / 2 / 2) with (PI / 4) by lra; rewrite cos_PI4.
  assert (H2 : 1 / sqrt 2 < cos (PI / 8))
    by (rewrite <- cos_PI4; apply cos_decreasing_1; lra).
  pose proof cos_PI8_bounds as H4.
  split; nra.
Qed.

Lemma level_solve (uninit : angle_refs) :
  solve_angles (plain_modifier (Fin 1)) level_x level_y uninit
  = mkAngles (Fin (PI / 4)) (Fin (PI / 2)) (Fin 0) (Fin (PI / 2))
             (center_of_control_points_x uninit)
             (center_of_control_points_y uninit).
Proof.
  unfold solve_angles, plain_modifier; cbn [f_normalized NormScale CenterX CenterY].
  unfold level_x, level_y; cbn [length].
  rewrite !normalize_points_plain.
  apply level_angles.
Qed.

(** The rotated image center has [z = 0], so the orchestrator transforms the
    pair [(ux, uy)] that [calculate_angles] left in the two center
    variables: the third coordinate of the result is [uy]. *)
Lemma level_center_coords (al : float) (ux uy : R) :
  center_coords (plain_modifier (Fin 1))
    (mkAngles (Fin (PI / 4)) (Fin (PI / 2)) (Fin 0) al (Fin ux) (Fin uy))
    (Fin 0)
  = [Fin (1 / sqrt 2 * ux + 1 / sqrt 2);
     Fin (1 / sqrt 2 * ux - 1 / sqrt 2);
     Fin uy].
Proof.
  pose proof inv_sqrt2_pos as Hh.
  unfold center_coords, choose_center, plain_modifier.
  cbn [rho delta rho_h f_normalized center_of_control_points_x
       center_of_control_points_y].
  rewrite rotate_rho_delta_rho_h_fin.
  rewrite generate_rotation_matrix_exact by apply level_qw.
  unfold rotation_y_x_y; fl_rw.
  rewrite sin_0, cos_0, sin_PI4, cos_PI4, sin_PI2, cos_PI2.
  rewrite Rleb_true by lra.
  cbn [orb]; fl_rw; fin_lra.
Qed.

Lemma level_enable (uninit : angle_refs) (ux uy : R) :
  center_of_control_points_x uninit = Fin ux ->
  center_of_control_points_y uninit = Fin uy ->
  fst (enable_perspective_correction (plain_modifier (Fin 1)) level_x level_y
                                     (Fin 0) uninit)
  = negb (Fl.Rleb uy 0).
Proof.
  intros Hx Hy.
  unfold enable_perspective_correction.
  replace (clamp_d (Fin 0)) with (Fin 0) by (unfold clamp_d; fl_eval; reflexivity).
  rewrite level_solve, Hx, Hy, level_center_coords.
  change (f_normalized (plain_modifier (Fin 1))) with (Fin 1).
  change (length level_x) with 4%nat.
  list_step; fl_rw.
  destruct (Fl.Rleb uy 0); reflexivity.
Qed.

(** C3. Specified: [calculate_angles] returns the mean of the control points
    through its last two reference parameters, and the orchestrator
    transforms that point when it selects [control_points_center].  The
    code never assigns the two parameters: after the call they hold what
    they held before, for every input, and so does the pair of the
    orchestrator, which is declared without an initial value.  In
    scenario B the mean is [(0, 1/10)] and the two variables keep their
    stale content.  For the four points of [level_x], [level_y] the
    orchestrator selects [control_points_center]: the mean is
    [(7/8, 33/32)], and the result of the call follows the stale content,
    true for [(7, 7)] and false for [(7, -7)]. *)
Theorem calculate_angles_leaves_center_unassigned :
  (forall x y f refs,
      center_of_control_points_x (calculate_angles x y f refs)
      = center_of_control_points_x refs
      /\ center_of_control_points_y (calculate_angles x y f refs)
         = center_of_control_points_y refs)
  /\ (forall m x y uninit,
         center_of_control_points_x (solve_angles m x y uninit)
         = center_of_control_points_x uninit
         /\ center_of_control_points_y (solve_angles m x y uninit)
            = center_of_control_points_y uninit)
  /\ (let r := calculate_angles scenario_B_x scenario_B_y (Fin 1) stale_refs in
      (center_of_control_points_x r, center_of_control_points_y r)
      = (Fin 7, Fin 7)
      /\ spec_reference_center scenario_B_x scenario_B_y = (Fin 0, Fin (1 / 10)))
  /\ (let m := plain_modifier (Fin 1) in
      spec_reference_center level_x level_y = (Fin (7 / 8), Fin (33 / 32))
      /\ choose_center m (solve_angles m level_x level_y stale_refs)
         = control_points_center
      /\ fst (enable_perspective_correction m level_x level_y (Fin 0) stale_refs)
         = true
      /\ fst (enable_perspective_correction m level_x level_y (Fin 0) stale_refs')
         = false).
Proof.
  split; [| split; [| split]].
  - intros; split;
      [apply calculate_angles_center_x | apply calculate_angles_center_y].
  - intros; unfold solve_angles; split;
      [apply calculate_angles_center_x | apply calculate_angles_center_y].
  - cbv zeta; rewrite calculate_angles_center_x, calculate_angles_center_y.
    split; [reflexivity |].
    unfold spec_reference_center, scenario_B_x, scenario_B_y.
    cbn [length Nat.eqb]; rewrite !accumulate_4.
    unfold Fl.of_nat; cbn [INR].
    rewrite !div_fin by lra.
    fin_lra.
  - cbv zeta; split; [| split; [| split]].
    + unfold spec_reference_center, level_x, level_y.
      cbn [length Nat.eqb]; rewrite !accumulate_4.
      unfold Fl.of_nat; cbn [INR].
      rewrite !div_fin by lra.
      fin_lra.
    + rewrite level_solve.
      unfold choose_center, plain_modifier; cbn [rho delta rho_h f_normalized].
      rewrite rotate_rho_delta_rho_h_fin; fl_rw.
      rewrite sin_0, cos_0, sin_PI4, cos_PI4, sin_PI2, cos_PI2.
      rewrite Rleb_true by lra; reflexivity.
    + rewrite (level_enable stale_refs 7 7) by reflexivity.
      rewrite Rleb_false by lra; reflexivity.
    + rewrite (level_enable stale_refs' 7 (-7)) by reflexivity.
      rewrite Rleb_true by lra; reflexivity.
Qed.

(** * The result of the orchestrator *)

Lemma level_reference_center :
  spec_reference_center level_x level_y = (Fin (7 / 8), Fin (33 / 32)).
Proof.
  unfold spec_reference_center, level_x, level_y.
  cbn [length Nat.eqb]; rewrite !accumulate_4.
  unfold Fl.of_nat; cbn [INR].
  rewrite !div_fin by lra.
  fin_lra.
Qed.

Lemma level_spec_center_coords (uninit : angle_refs) :
  vget (spec_center_coords (plain_modifier (Fin 1)) level_x level_y (Fin 0)
                           uninit) 2
  = Fin (33 / 32).
Proof.
  unfold spec_center_coords; cbv zeta.
  rewrite level_solve.
  change (NormScale (plain_modifier (Fin 1))) with (Fin 1).
  change (CenterX (plain_modifier (Fin 1))) with (Fin 0).
  change (CenterY (plain_modifier (Fin 1))) with (Fin 0).
  unfold level_x at 1 2, level_y at 1; cbn [length].
  rewrite !normalize_points_plain.
  fold level_x; fold level_y; rewrite level_reference_center.
  cbv beta iota; cbn [rho delta rho_h alpha].
  replace (clamp_d (Fin 0)) with (Fin 0) by (unfold clamp_d; fl_eval; reflexivity).
  rewrite (level_center_coords (Fin (PI / 2)) (7 / 8) (33 / 32)); reflexivity.
Qed.

(** C4. Specified: the call returns false exactly when the focal length is
    not positive, the number of control points lies outside [[4, 8]], or
    the rotated reference center has [z <= 0]; and a call that fails
    registers no callback.  The second part holds of the code: a call
    that returns false leaves the modifier as it was.  The first part does
    not: under [control_points_center] the code rotates the content of two
    variables that no statement has assigned, not the reference center of
    the control points.  For the four points of [level_x], [level_y] and
    the focal length 1 none of the specified conditions holds, whatever
    the stale content (the rotated reference center has [z = 33/32]); yet
    the call returns false exactly when the stale second variable is not
    positive, as for the content [(7, -7)]. *)
Theorem enable_perspective_correction_fails_on_stale_center :
  let m := plain_modifier (Fin 1) in
  (forall uninit, spec_failure m level_x level_y (Fin 0) uninit = false)
  /\ (forall uninit,
         vget (spec_center_coords m level_x level_y (Fin 0) uninit) 2
         = Fin (33 / 32))
  /\ fst (enable_perspective_correction m level_x level_y (Fin 0) stale_refs')
     = false
  /\ (forall uninit ux uy,
         center_of_control_points_x uninit = Fin ux ->
         center_of_control_points_y uninit = Fin uy ->
         fst (enable_perspective_correction m level_x level_y (Fin 0) uninit)
         = negb (Fl.Rleb uy 0))
  /\ (forall m' x y d uninit,
         fst (enable_perspective_correction m' x y d uninit) = false ->
         snd (enable_perspective_correction m' x y d uninit) = m').
Proof.
  cbv zeta; split; [| split; [| split; [| split]]].
  - intros uninit; unfold spec_failure.
    rewrite level_spec_center_coords.
    change (f_normalized (plain_modifier (Fin 1))) with (Fin 1).
    change (length level_x) with 4%nat.
    cbn [Nat.ltb Nat.leb orb Fl.leb].
    rewrite !Rleb_false by lra; reflexivity.
  - exact level_spec_center_coords.
  - rewrite (level_enable stale_refs' 7 (-7)) by reflexivity.
    rewrite Rleb_true by lra; reflexivity.
  - intros uninit ux uy Hx Hy; exact (level_enable uninit ux uy Hx Hy).
  - intros m' x y d uninit; unfold enable_perspective_correction.
    destruct (_ || _ || _); cbn [fst snd]; [reflexivity |].
    destruct (Fl.leb _ _); cbn [fst snd]; [reflexivity | discriminate].
Qed.

(** * Further properties of the primitives *)

Lemma range_64 (v : R) : 1 <= v <= 32 -> / 2 ^ 64 <= v <= 2 ^ 64.
Proof.
  intros Hv.
  assert (H1 : 1 <= 2 ^ 59) by (apply pow_R1_Rle; lra).
  assert (H2 : 2 ^ 64 = 32 * 2 ^ 59)
    by (replace 32 with (2 ^ 5) by (simpl; lra);
        rewrite <- pow_add; reflexivity).
  assert (H3 : / 2 ^ 64 <= 1)
    by (rewrite <- Rinv_1; apply Rinv_le_contravar; lra).
  lra.
Qed.

(** X1. For the pair [(0, 0)] [normalize] divides zero by zero and returns
    two NaN.  For a pair whose squared length lies between [2^-64] and
    [2^64], where neither the squares nor their root leave the range of
    the single-precision numbers of the code, it returns a vector of
    length one. *)
Theorem normalize_unit_or_nan (a b : R) :
  (a = 0 /\ b = 0) \/ / 2 ^ 64 <= a * a + b * b <= 2 ^ 64 ->
  (a = 0 /\ b = 0 /\ normalize (Fin a) (Fin b) = [NaN; NaN])
  \/ (a * a + b * b <> 0
      /\ exists u v, normalize (Fin a) (Fin b) = [Fin u; Fin v]
                     /\ u * u + v * v = 1).
Proof.
  intros _.
  destruct (Req_dec_T (a * a + b * b) 0) as [H0|H0].
  - left.
    assert (a = 0) by nra; assert (b = 0) by nra; subst.
    repeat split; unfold normalize; fl_rw.
    replace (0 * 0 + 0 * 0) with 0 by lra; rewrite sqrt_0.
    fl_eval; reflexivity.
  - right; split; [exact H0 |].
    assert (Hp : 0 < a * a + b * b) by nra.
    rewrite normalize_fin by assumption.
    pose proof (sqrt_lt_R0 _ Hp) as Hs.
    pose proof (sqrt_sqrt (a * a + b * b) ltac:(lra)) as Hq.
    do 2 eexists; split; [reflexivity |].
    set (n := sqrt (a * a + b * b)) in *.
    assert (E : (a / n * (a / n) + b / n * (b / n)) * (n * n) = a * a + b * b)
      by (field; lra).
    nra.
Qed.

Lemma normalize_unit_or_nan_witness :
  ((3 = 0 /\ 4 = 0) \/ / 2 ^ 64 <= 3 * 3 + 4 * 4 <= 2 ^ 64)
  /\ ((3 = 0 /\ 4 = 0 /\ normalize (Fin 3) (Fin 4) = [NaN; NaN])
      \/ (3 * 3 + 4 * 4 <> 0
          /\ exists u v, normalize (Fin 3) (Fin 4) = [Fin u; Fin v]
                         /\ u * u + v * v = 1)).
Proof.
  assert (H : (3 = 0 /\ 4 = 0) \/ / 2 ^ 64 <= 3 * 3 + 4 * 4 <= 2 ^ 64).
  { right; apply range_64; lra. }
  split; [exact H |].
  exact (normalize_unit_or_nan 3 4 H).
Defined.






(** * Further properties of the rotations *)

(** X4. [rotate_rho_delta] keeps the length of the vector, for all real
    angles and every vector whose squared length lies between [2^-64] and
    [2^64], where no product or sum of the code leaves the range of its
    single-precision numbers. *)
Theorem rotate_rho_delta_keeps_length (r d x y z : R) :
  / 2 ^ 64 <= x * x + y * y + z * z <= 2 ^ 64 ->
  exists a b c,
    rotate_rho_delta (Fin r) (Fin d) (Fin x) (Fin y) (Fin z)
    = [Fin a; Fin b; Fin c]
    /\ a * a + b * b + c * c = x * x + y * y + z * z.
Proof.
  intros _.
  rewrite rotate_rho_delta_fin.
  do 3 eexists; split; [reflexivity |].
  pose proof (sin2_cos2' r) as Hr.
  pose proof (sin2_cos2' d) as Hd.
  set (sr := sin r) in *; set (cr := cos r) in *.
  set (sd := sin d) in *; set (cd := cos d) in *.
  nsatz.
Qed.

Lemma rotate_rho_delta_keeps_length_witness :
  / 2 ^ 64 <= 1 * 1 + 2 * 2 + 2 * 2 <= 2 ^ 64
  /\ exists a b c,
      rotate_rho_delta (Fin (PI / 4)) (Fin (PI / 3)) (Fin 1) (Fin 2) (Fin 2)
      = [Fin a; Fin b; Fin c]
      /\ a * a + b * b + c * c = 1 * 1 + 2 * 2 + 2 * 2.
Proof.
  assert (H : / 2 ^ 64 <= 1 * 1 + 2 * 2 + 2 * 2 <= 2 ^ 64).
  { apply range_64; lra. }
  split; [exact H |].
  exact (rotate_rho_delta_keeps_length (PI / 4) (PI / 3) 1 2 2 H).
Defined.


(** * Further properties of the angle solver *)

Lemma calculate_angles_rho (x y : fvector) (f : float) (refs : angle_refs) :
  rho (calculate_angles x y f refs)
  = Fl.atan (Fl.div (Fl.neg (x_v (find_vertex x y f)))
                    (f_local (find_vertex x y f))).
Proof.
  unfold calculate_angles.
  repeat match goal with
         | |- context [let '(_, _) := ?e in _] => destruct e
         end.
  reflexivity.
Qed.

Lemma calculate_angles_delta (x y : fvector) (f : float) (refs : angle_refs) :
  let l := find_vertex x y f in
  let rho0 := Fl.atan (Fl.div (Fl.neg (x_v l)) (f_local l)) in
  let delta0 :=
    Fl.sub M_PI_2
           (Fl.atan (Fl.div (Fl.neg (y_v l))
                            (Fl.sqrt (Fl.add (Fl.pow (x_v l) 2)
                                             (Fl.pow (f_local l) 2))))) in
  delta (calculate_angles x y f refs)
  = if Fl.ltb (vget (rotate_rho_delta rho0 delta0 (center_x l) (center_y l)
                                      (f_local l)) 2) (Fin 0)
    then Fl.sub delta0 M_PI else delta0.
Proof.
  cbv zeta; unfold calculate_angles.
  repeat match goal with
         | |- context [let '(_, _) := ?e in _] => destruct e
         end.
  reflexivity.
Qed.






Lemma determine_rho_h_zero_or_nan (rho delta : float) (x y : fvector)
      (f cx cy : float) :
  determine_rho_h rho delta x y f cx cy = Fin 0
  \/ determine_rho_h rho delta x y f cx cy = NaN.
Proof.
  rewrite determine_rho_h_value.
  destruct (vget _ 1); try (destruct (Fl.eqb _ _)); auto.
Qed.

Lemma calculate_angles_rho_h (x y : fvector) (f : float) (refs : angle_refs) :
  exists (rho delta : float) (x4 y4 x6 y6 x5 y5 : fvector) (f' cx cy : float),
    rho_h (calculate_angles x y f refs)
    = if Nat.eqb (length x) 4 then
        (if Fl.isnan (determine_rho_h rho delta x4 y4 f' cx cy) then Fin 0
         else determine_rho_h rho delta x4 y4 f' cx cy)
      else if Nat.eqb (length x) 5 || Nat.eqb (length x) 7 then Fin 0
      else if Fl.isnan (determine_rho_h rho delta x5 y5 f' cx cy) then
             (if Nat.eqb (length x) 8
              then determine_rho_h rho delta x6 y6 f' cx cy else Fin 0)
           else determine_rho_h rho delta x5 y5 f' cx cy.
Proof.
  unfold calculate_angles.
  destruct (if Nat.eqb (length x) 7 then _ else _) as [sw al].
  destruct (if sw then _ else _) as [xp yp].
  cbn [rho_h].
  do 11 eexists.
  reflexivity.
Qed.

Lemma eight_parallel_points_rho_h (refs : angle_refs) :
  rho_h (calculate_angles (scenario_A_x ++ scenario_A_x)
                          (scenario_A_y ++ scenario_A_y) (Fin 1) refs)
  = NaN.
Proof.
  assert (Hv : find_vertex (scenario_A_x ++ scenario_A_x)
                           (scenario_A_y ++ scenario_A_y) (Fin 1)
               = mkLocals (Fin 0) (Fin 0) NaN PInf (Fin 1)).
  { unfold find_vertex.
    replace (slice (scenario_A_x ++ scenario_A_x) 0 4) with scenario_A_x
      by reflexivity.
    replace (slice (scenario_A_y ++ scenario_A_y) 0 4) with scenario_A_y
      by reflexivity.
    replace (slice (scenario_A_x ++ scenario_A_x) 4 8) with scenario_A_x
      by reflexivity.
    replace (slice (scenario_A_y ++ scenario_A_y) 4 8) with scenario_A_y
      by reflexivity.
    rewrite scenario_A_intersection.
    unfold scenario_A_x, scenario_A_y; list_step; fl_eval.
    f_equal; fin_lra. }
  unfold calculate_angles; rewrite Hv.
  unfold direction, normalize, rotate_rho_delta.
  unfold scenario_A_x, scenario_A_y; list_step.
  cbn [center_x center_y x_v y_v f_local]; fl_eval.
  rewrite !determine_rho_h_value; unfold rotate_rho_delta; fl_eval.
  reflexivity.
Qed.

(** X8. The residual horizontal correction that [calculate_angles] returns
    is 0 for every input with a number of control points other than 8, and
    0 or NaN for 8 control points: [determine_rho_h] only ever yields 0 or
    NaN, and the two fallbacks replace NaN by 0 except in the last call for
    8 points.  NaN does come back: with eight points whose first two lines
    are parallel. *)
Theorem calculate_angles_rho_h_values :
  (forall x y f refs,
      rho_h (calculate_angles x y f refs) = Fin 0
      \/ (length x = 8%nat /\ rho_h (calculate_angles x y f refs) = NaN))
  /\ (forall refs,
         rho_h (calculate_angles (scenario_A_x ++ scenario_A_x)
                                 (scenario_A_y ++ scenario_A_y) (Fin 1) refs)
         = NaN).
Proof.
  split; [| exact eight_parallel_points_rho_h].
  intros x y f refs.
  destruct (calculate_angles_rho_h x y f refs)
    as (r & d & x4 & y4 & x6 & y6 & x5 & y5 & f' & cx & cy & ->).
  destruct (Nat.eqb (length x) 4).
  { destruct (determine_rho_h_zero_or_nan r d x4 y4 f' cx cy) as [-> | ->];
      left; reflexivity. }
  destruct (Nat.eqb (length x) 5 || Nat.eqb (length x) 7); [left; reflexivity |].
  destruct (determine_rho_h_zero_or_nan r d x5 y5 f' cx cy) as [-> | ->];
    cbn [Fl.isnan]; [left; reflexivity |].
  destruct (Nat.eqb (length x) 8) eqn:H8; [| left; reflexivity].
  apply Nat.eqb_eq in H8.
  destruct (determine_rho_h_zero_or_nan r d x6 y6 f' cx cy) as [-> | ->]; auto.
Qed.

(** X9. Unless there are 7 control points, the in-plane angle [alpha] that
    [calculate_angles] returns is 0, [pi/2] or [-pi/2], for every input. *)
Theorem calculate_angles_alpha_values
        (x y : fvector) (f : float) (refs : angle_refs) :
  length x = 7%nat
  \/ alpha (calculate_angles x y f refs) = Fin 0
  \/ alpha (calculate_angles x y f refs) = Fin (PI / 2)
  \/ alpha (calculate_angles x y f refs) = Fin (- (PI / 2)).
Proof.
  destruct (Nat.eqb (length x) 7) eqn:H7.
  { left; apply Nat.eqb_eq; exact H7. }
  right; unfold calculate_angles; rewrite H7.
  destruct (Fl.ltb (Fl.fabs _) (Fl.fabs _)); cbn [alpha].
  - destruct (Fl.ltb _ _); unfold M_PI_2; cbn [Fl.neg]; auto.
  - auto.
Qed.

Lemma atan_range (a : float) :
  Fl.atan a = NaN
  \/ exists r, Fl.atan a = Fin r /\ - (PI / 2) <= r <= PI / 2.
Proof.
  pose proof PI_RGT_0 as Hpi.
  destruct a as [r| | |]; cbn [Fl.atan]; auto; right; eexists;
    (split; [reflexivity |]); try lra.
  pose proof (atan_bound r); lra.
Qed.

(** X10. The angles that [calculate_angles] returns are bounded for every
    input: [rho] is NaN or lies in [[-pi/2, pi/2]], [delta] is NaN or lies
    in [[-pi, pi]]. *)
Theorem calculate_angles_ranges
        (x y : fvector) (f : float) (refs : angle_refs) :
  (rho (calculate_angles x y f refs) = NaN
   \/ exists r, rho (calculate_angles x y f refs) = Fin r
                /\ - (PI / 2) <= r <= PI / 2)
  /\ (delta (calculate_angles x y f refs) = NaN
      \/ exists d, delta (calculate_angles x y f refs) = Fin d
                   /\ - PI <= d <= PI).
Proof.
  pose proof PI_RGT_0 as Hpi.
  split.
  - rewrite calculate_angles_rho; apply atan_range.
  - pose proof (calculate_angles_delta x y f refs) as Hd; cbv zeta in Hd.
    rewrite Hd; clear Hd.
    match goal with
    | |- context [Fl.sub M_PI_2 (Fl.atan ?a)] =>
        destruct (atan_range a) as [-> | (t & -> & Ht)]
    end.
    + left; destruct (Fl.ltb _ _); reflexivity.
    + right; destruct (Fl.ltb _ _); unfold M_PI_2, M_PI; fl_rw;
        eexists; (split; [reflexivity | lra]).
Qed.

(** * Further properties of the rotation matrix *)

Lemma rescale_quaternion_axis_angle (w x y z k : R) (d : float) :
  -1 <= w <= 1 -> w * w <> 1 -> strength d = Fin k ->
  exists t s,
    s * s = 1 - w * w
    /\ - (9 / 10 * PI) <= t <= 9 / 10 * PI
    /\ rescale_quaternion (Fin w, Fin x, Fin y, Fin z) d
       = (Fin (cos (t / 2)), Fin (x / s * sin (t / 2)),
          Fin (y / s * sin (t / 2)), Fin (z / s * sin (t / 2))).
Proof.
  intros Hw Hnd Hk.
  pose proof PI_RGT_0 as Hpi.
  unfold rescale_quaternion, quaternion_angle; rewrite Hk.
  pose proof (cos_acos w Hw) as Hcos.
  unfold Fl.acos; fl_rw.
  set (theta := if Fl.Rltb PI (2 * acos w) then _ else _).
  assert (Hth : exists th, theta = Fin th /\ sin (th / 2) * sin (th / 2) = 1 - w * w).
  { subst theta; destruct (Fl.Rltb PI (2 * acos w)); eexists;
      (split; [reflexivity |]).
    - replace ((2 * acos w - 2 * PI) / 2) with (acos w - PI) by lra.
      rewrite sin_minus, sin_PI, cos_PI, Hcos.
      pose proof (sin2_cos2' (acos w)) as H; rewrite Hcos in H; nra.
    - replace (2 * acos w / 2) with (acos w) by lra.
      pose proof (sin2_cos2' (acos w)) as H; rewrite Hcos in H; nra. }
  destruct Hth as (th & -> & Hs).
  assert (Hs0 : sin (th / 2) <> 0) by nra.
  fl_rw.
  set (tc := if Fl.Rltb (9 / 10 * PI) (th * k) then _ else _).
  assert (Htc : exists t, tc = Fin t /\ - (9 / 10 * PI) <= t <= 9 / 10 * PI).
  { subst tc.
    destruct (Rlt_dec (9 / 10 * PI) (th * k)) as [H1|H1].
    { rewrite (Rltb_true _ _ H1); eexists; split; [reflexivity | lra]. }
    rewrite (Rltb_false _ _ H1).
    destruct (Rlt_dec (th * k) (- (9 / 10) * PI)) as [H2|H2].
    { rewrite (Rltb_true _ _ H2); eexists; split; [reflexivity | lra]. }
    rewrite (Rltb_false _ _ H2); eexists; split; [reflexivity | lra]. }
  destruct Htc as (t & -> & Ht).
  exists t, (sin (th / 2)); split; [exact Hs | split; [exact Ht |]].
  fl_rw; reflexivity.
Qed.

Lemma margin_value : / 2 ^ 12 = / 4096.
Proof. apply f_equal; simpl; lra. Qed.

Lemma cos_PI8_le : cos (PI / 8) <= 15 / 16.
Proof.
  pose proof cos_PI8_bounds as Hb.
  pose proof inv_sqrt2_pos as Hp.
  pose proof inv_sqrt2_sq as Hq.
  pose proof (cos_2a_cos (PI / 8)) as Hc.
  replace (2 * (PI / 8)) with (PI / 4) in Hc by lra.
  rewrite cos_PI4 in Hc.
  set (c := cos (PI / 8)) in *; set (h := 1 / sqrt 2) in *.
  assert (Hh : h <= 3 / 4) by nra.
  assert (Hc2 : c * c <= 7 / 8) by nra.
  destruct (Rle_dec c (15 / 16)) as [Hle|Hgt]; [exact Hle |].
  assert (15 / 16 * (15 / 16) < c * c) by nra.
  lra.
Qed.

(** X11. For real angles whose composed quaternion keeps its component [w]
    away from 1 and from -1 by at least [2^-12] (a rotation by more than
    about 2.5 degrees, so that the rounding of [w] to single precision
    cannot make the divisor [sin (theta / 2)] vanish) and every real
    strength [d], [generate_rotation_matrix] returns the rotation about a
    unit axis by an angle [t] that the clamp keeps within [0.9 pi]: the
    matrix of the quaternion [(cos (t/2), n sin (t/2))].  In particular
    the matrix is orthogonal with determinant one. *)
Theorem generate_rotation_matrix_axis_angle (r1 dl r2 d : R) :
  - (1 - / 2 ^ 12) <= qw r1 dl r2 <= 1 - / 2 ^ 12 ->
  exists t nx ny nz,
    nx * nx + ny * ny + nz * nz = 1
    /\ - (9 / 10 * PI) <= t <= 9 / 10 * PI
    /\ generate_rotation_matrix (Fin r1) (Fin dl) (Fin r2) (Fin d)
       = matrix_of_quaternion
           (Fin (cos (t / 2)), Fin (nx * sin (t / 2)),
            Fin (ny * sin (t / 2)), Fin (nz * sin (t / 2)))
    /\ is_rotation (generate_rotation_matrix (Fin r1) (Fin dl) (Fin r2) (Fin d)).
Proof.
  intros Hw.
  assert (Hnd : qw r1 dl r2 * qw r1 dl r2 <> 1)
    by (rewrite margin_value in Hw; nra).
  destruct (strength_fin d) as [k Hk].
  destruct (rescale_quaternion_axis_angle _ (qx r1 dl r2) (qy r1 dl r2)
              (qz r1 dl r2) k (Fin d) (qw_bounds r1 dl r2) Hnd Hk)
    as (t & s & Hs & Ht & Hq).
  pose proof (quaternion_unit r1 dl r2) as Hu.
  assert (Hs0 : s <> 0) by nra.
  exists t, (qx r1 dl r2 / s), (qy r1 dl r2 / s), (qz r1 dl r2 / s).
  assert (Hax : qx r1 dl r2 / s * (qx r1 dl r2 / s)
                + qy r1 dl r2 / s * (qy r1 dl r2 / s)
                + qz r1 dl r2 / s * (qz r1 dl r2 / s) = 1).
  { set (w := qw r1 dl r2) in *; set (x := qx r1 dl r2) in *.
    set (y := qy r1 dl r2) in *; set (z := qz r1 dl r2) in *.
    field_simplify_eq; [nra | assumption]. }
  split; [exact Hax | split; [exact Ht |]].
  assert (Hm : generate_rotation_matrix (Fin r1) (Fin dl) (Fin r2) (Fin d)
               = matrix_of_quaternion
                   (Fin (cos (t / 2)), Fin (qx r1 dl r2 / s * sin (t / 2)),
                    Fin (qy r1 dl r2 / s * sin (t / 2)),
                    Fin (qz r1 dl r2 / s * sin (t / 2)))).
  { unfold generate_rotation_matrix; rewrite quaternion_fin, Hq; reflexivity. }
  split; [exact Hm |].
  rewrite Hm; apply matrix_of_unit_quaternion.
  pose proof (sin2_cos2' (t / 2)) as Hsc.
  set (x' := qx r1 dl r2 / s) in *; set (y' := qy r1 dl r2 / s) in *.
  set (z' := qz r1 dl r2 / s) in *.
  nra.
Qed.

Lemma qw_pitch_PI4_rotates :
  - (1 - / 2 ^ 12) <= qw 0 (PI / 4) 0 <= 1 - / 2 ^ 12.
Proof.
  rewrite qw_pitch_PI4, margin_value.
  pose proof cos_PI8_bounds; pose proof cos_PI8_le; lra.
Qed.

Lemma generate_rotation_matrix_axis_angle_witness :
  - (1 - / 2 ^ 12) <= qw 0 (PI / 4) 0 <= 1 - / 2 ^ 12
  /\ exists t nx ny nz,
      nx * nx + ny * ny + nz * nz = 1
      /\ - (9 / 10 * PI) <= t <= 9 / 10 * PI
      /\ generate_rotation_matrix (Fin 0) (Fin (PI / 4)) (Fin 0) (Fin (1 / 2))
         = matrix_of_quaternion
             (Fin (cos (t / 2)), Fin (nx * sin (t / 2)),
              Fin (ny * sin (t / 2)), Fin (nz * sin (t / 2)))
      /\ is_rotation (generate_rotation_matrix (Fin 0) (Fin (PI / 4)) (Fin 0)
                                               (Fin (1 / 2))).
Proof.
  split; [exact qw_pitch_PI4_rotates |].
  exact (generate_rotation_matrix_axis_angle 0 (PI / 4) 0 (1 / 2)
           qw_pitch_PI4_rotates).
Defined.




Lemma acos_le (w c : R) :
  0 <= c <= PI -> cos c <= w <= 1 -> -1 <= w -> acos w <= c.
Proof.
  intros Hc Hw Hlo.
  assert (Hb : -1 <= w <= 1) by lra.
  pose proof (acos_bound w) as Ha.
  pose proof (cos_acos w Hb) as Hcos.
  destruct (Rle_dec (acos w) c) as [Hle|Hgt]; [assumption |].
  assert (Hlt : cos (acos w) < cos c) by (apply cos_decreasing_1; lra).
  lra.
Qed.


Lemma apply3_rotation_y_x_y (r1 dl r2 x y z : R) :
  apply3 (rotation_y_x_y r1 dl r2) (Fin x) (Fin y) (Fin z)
  = rotate_rho_delta_rho_h (Fin r1) (Fin dl) (Fin r2) (Fin x) (Fin y) (Fin z).
Proof.
  rewrite rotate_rho_delta_rho_h_fin.
  unfold apply3, rotation_y_x_y; cbn [map seq]; fl_rw.
  reflexivity.
Qed.

(** X13. Without strength ([d = 0]) and for a composed quaternion with
    [cos (0.45 pi) <= w <= 1 - 2^-12], that is a rotation by at most
    [0.9 pi] and by more than about 2.5 degrees (the component [w] stays
    below 1 by more than its rounding to single precision),
    [generate_rotation_matrix] returns the matrix
    [R_y(rho_2) R_x(delta) R_y(rho_1)] that its comment names, and applying
    it to a vector gives what [rotate_rho_delta_rho_h] computes with the
    same angles. *)
Theorem generate_rotation_matrix_agrees_with_rotate (r1 dl r2 : R) :
  cos (9 / 20 * PI) <= qw r1 dl r2 <= 1 - / 2 ^ 12 ->
  generate_rotation_matrix (Fin r1) (Fin dl) (Fin r2) (Fin 0)
  = rotation_y_x_y r1 dl r2
  /\ forall x y z,
      apply3 (generate_rotation_matrix (Fin r1) (Fin dl) (Fin r2) (Fin 0))
             (Fin x) (Fin y) (Fin z)
      = rotate_rho_delta_rho_h (Fin r1) (Fin dl) (Fin r2) (Fin x) (Fin y) (Fin z).
Proof.
  intros Hw0.
  assert (Hw : cos (9 / 20 * PI) <= qw r1 dl r2 < 1)
    by (rewrite margin_value in Hw0; lra).
  clear Hw0.
  assert (Hm : generate_rotation_matrix (Fin r1) (Fin dl) (Fin r2) (Fin 0)
               = rotation_y_x_y r1 dl r2).
  { unfold generate_rotation_matrix.
    rewrite quaternion_fin, <- matrix_of_composed_quaternion.
    f_equal.
    pose proof (qw_bounds r1 dl r2) as Hb.
    set (w := qw r1 dl r2) in *.
    pose proof PI_RGT_0 as Hpi.
    pose proof (acos_bound w) as Hab.
    pose proof (cos_acos w Hb) as Hc.
    assert (Ha : acos w <= 9 / 20 * PI) by (apply acos_le; lra).
    assert (Ha0 : 0 < acos w).
    { destruct (Req_dec_T (acos w) 0) as [H0|H0]; [| lra].
      rewrite H0, cos_0 in Hc; lra. }
    assert (Hs : 0 < sin (acos w)) by (apply sin_gt_0; lra).
    unfold rescale_quaternion, quaternion_angle, strength, Fl.acos; fl_rw.
    replace (2 * acos w / 2) with (acos w) by lra.
    assert (Hs0 : sin (acos w) <> 0) by lra.
    fl_rw.
    replace (2 * acos w * (0 + 1) / 2) with (acos w) by lra.
    rewrite Hc.
    fin_by ltac:(field; assumption). }
  split; [exact Hm |].
  intros x y z; rewrite Hm; apply apply3_rotation_y_x_y.
Qed.

Lemma cos_9PI20_le_half_sqrt2 : cos (9 / 20 * PI) <= 1 / sqrt 2.
Proof.
  pose proof PI_RGT_0 as Hpi.
  rewrite <- cos_PI4; left; apply cos_decreasing_1; lra.
Qed.

Lemma generate_rotation_matrix_agrees_with_rotate_witness :
  cos (9 / 20 * PI) <= qw 0 (PI / 4) 0 <= 1 - / 2 ^ 12
  /\ generate_rotation_matrix (Fin 0) (Fin (PI / 4)) (Fin 0) (Fin 0)
     = rotation_y_x_y 0 (PI / 4) 0
  /\ forall x y z,
      apply3 (generate_rotation_matrix (Fin 0) (Fin (PI / 4)) (Fin 0) (Fin 0))
             (Fin x) (Fin y) (Fin z)
      = rotate_rho_delta_rho_h (Fin 0) (Fin (PI / 4)) (Fin 0)
                               (Fin x) (Fin y) (Fin z).
Proof.
  assert (H : cos (9 / 20 * PI) <= qw 0 (PI / 4) 0 <= 1 - / 2 ^ 12).
  { rewrite qw_pitch_PI4, margin_value.
    pose proof cos_PI8_le as Hle.
    pose proof cos_PI8_bounds as Hb.
    pose proof cos_9PI20_le_half_sqrt2 as H9.
    pose proof PI_RGT_0 as Hpi.
    assert (1 / sqrt 2 < cos (PI / 8))
      by (rewrite <- cos_PI4; apply cos_decreasing_1; lra).
    lra. }
  split; [exact H |].
  exact (generate_rotation_matrix_agrees_with_rotate 0 (PI / 4) 0 H).
Defined.





(** * Further properties of the callback *)

(** X15. The callback transforms exactly the first [count] pairs of the
    buffer: the length of the buffer is kept and everything behind the
    pairs is left as it was. *)
Theorem callback_touches_count_pairs (data iocoord : fvector) (count : nat) :
  (2 * count <= length iocoord)%nat ->
  length (ModifyCoord_Perspective_Correction data iocoord count)
  = length iocoord
  /\ skipn (2 * count) (ModifyCoord_Perspective_Correction data iocoord count)
     = skipn (2 * count) iocoord.
Proof.
  revert iocoord; induction count as [|count IH]; intros iocoord Hlen.
  - destruct iocoord; split; reflexivity.
  - destruct iocoord as [|x [|y rest]]; cbn [length] in Hlen; try lia.
    destruct (IH rest ltac:(lia)) as [IHl IHs].
    cbn [ModifyCoord_Perspective_Correction]; cbv zeta.
    replace (2 * S count)%nat with (S (S (2 * count))) by lia.
    cbn [length skipn]; split; [rewrite IHl; reflexivity | exact IHs].
Qed.

Lemma callback_touches_count_pairs_witness :
  (2 * 1 <= length [Fin 2; Fin 3; Fin 5])%nat
  /\ length (ModifyCoord_Perspective_Correction identity_block
                                               [Fin 2; Fin 3; Fin 5] 1)
     = length [Fin 2; Fin 3; Fin 5]
  /\ skipn (2 * 1) (ModifyCoord_Perspective_Correction identity_block
                                                      [Fin 2; Fin 3; Fin 5] 1)
     = skipn (2 * 1) [Fin 2; Fin 3; Fin 5].
Proof.
  assert (H : (2 * 1 <= length [Fin 2; Fin 3; Fin 5])%nat) by (cbn; lia).
  split; [exact H |].
  exact (callback_touches_count_pairs identity_block [Fin 2; Fin 3; Fin 5] 1 H).
Defined.

(** X16. The pairs are transformed independently of each other: the
    callback on a buffer of [n + m] pairs gives what it gives on the first
    [n] pairs and on the remaining [m] pairs apart, so a caller may split
    the buffer into ranges. *)
Theorem callback_on_ranges (data a b : fvector) (n m : nat) :
  length a = (2 * n)%nat ->
  ModifyCoord_Perspective_Correction data (a ++ b) (n + m)
  = ModifyCoord_Perspective_Correction data a n
    ++ ModifyCoord_Perspective_Correction data b m.
Proof.
  revert a; induction n as [|n IH]; intros a Hlen.
  - destruct a; [| discriminate].
    cbn [app Nat.add].
    destruct b, m; reflexivity.
  - destruct a as [|x [|y rest]]; cbn [length] in Hlen; try lia.
    cbn [app Nat.add ModifyCoord_Perspective_Correction]; cbv zeta.
    rewrite IH by lia; reflexivity.
Qed.

Lemma callback_on_ranges_witness :
  length [Fin 2; Fin 3] = (2 * 1)%nat
  /\ ModifyCoord_Perspective_Correction identity_block
       ([Fin 2; Fin 3] ++ [Fin 1; Fin 1]) (1 + 1)
     = ModifyCoord_Perspective_Correction identity_block [Fin 2; Fin 3] 1
       ++ ModifyCoord_Perspective_Correction identity_block [Fin 1; Fin 1] 1.
Proof.
  split; [reflexivity |].
  exact (callback_on_ranges identity_block [Fin 2; Fin 3] [Fin 1; Fin 1] 1 1
                            eq_refl).
Defined.

(** X17. The callback reads nothing of its parameter block but the first
    number: two blocks with the same first number give the same result,
    whatever matrix, focal length and shift they hold. *)
Theorem callback_reads_first_number (data data' iocoord : fvector) (count : nat) :
  vget data 0 = vget data' 0 ->
  ModifyCoord_Perspective_Correction data iocoord count
  = ModifyCoord_Perspective_Correction data' iocoord count.
Proof.
  intros Hk; revert iocoord.
  induction count as [|count IH]; intros [|x [|y rest]]; try reflexivity.
  cbn [ModifyCoord_Perspective_Correction]; rewrite Hk, IH; reflexivity.
Qed.

Lemma callback_reads_first_number_witness :
  vget identity_block 0 = vget [Fin 1] 0
  /\ ModifyCoord_Perspective_Correction identity_block [Fin 2; Fin 3] 1
     = ModifyCoord_Perspective_Correction [Fin 1] [Fin 2; Fin 3] 1.
Proof.
  split; [reflexivity |].
  exact (callback_reads_first_number identity_block [Fin 1] [Fin 2; Fin 3] 1
                                     eq_refl).
Defined.

(** * Further properties of the singular value decomposition *)


Lemma length_mset (A : matrix) (i j : nat) (a : float) :
  length (mset A i j a) = length A.
Proof.
  revert i; induction A as [|row t IH]; intros [|i]; cbn; auto.
Qed.

Lemma fold_left_invariant {S T : Type} (P : S -> Prop) (f : S -> T -> S)
      (l : list T) (s : S) :
  P s -> (forall s t, P s -> P (f s t)) -> P (fold_left f l s).
Proof.
  intros Hs Hf; revert s Hs; induction l as [|t l IH]; intros s Hs; cbn; auto.
Qed.

Lemma length_rotate_columns (n : nat) (A : matrix) (j k : nat) (c0 s0 : float) :
  length (Svd.rotate_columns n A j k c0 s0) = length A.
Proof.
  unfold Svd.rotate_columns.
  apply (fold_left_invariant (fun B : matrix => length B = length A));
    [reflexivity |].
  intros B i HB; cbv zeta; rewrite !length_mset; exact HB.
Qed.

Lemma length_pair_step (n : nat) (st : Svd.state) (j k : nat) :
  length (Svd.M (Svd.pair_step n st j k)) = length (Svd.M st).
Proof.
  unfold Svd.pair_step.
  destruct (Svd.column_sums n (Svd.M st) j k) as [[p q] r]; cbv zeta.
  repeat match goal with
         | |- context [if ?c then _ else _] => destruct c
         end;
    cbn [Svd.M]; rewrite ?length_rotate_columns; reflexivity.
Qed.

Lemma length_sweep (n : nat) (st : Svd.state) :
  length (Svd.M (Svd.sweep n st)) = length (Svd.M st).
Proof.
  unfold Svd.sweep; cbv zeta; cbn [Svd.M].
  match goal with
  | |- length (Svd.M (fold_left ?f ?l ?s)) = _ =>
      apply (fold_left_invariant
               (fun s' => length (Svd.M s') = length (Svd.M st)) f l s)
  end; [reflexivity |].
  intros s [j k] Hs; rewrite length_pair_step; exact Hs.
Qed.

Lemma length_cycles (n budget : nat) (st : Svd.state) :
  length (Svd.M (fst (Svd.cycles n budget st))) = length (Svd.M st).
Proof.
  revert st; induction budget as [|budget IH]; intros st; cbn [Svd.cycles].
  - reflexivity.
  - destruct (Z.eqb (Svd.counter st) 0); [reflexivity |].
    rewrite IH; apply length_sweep.
Qed.

Lemma length_resize (n : nat) (M0 : matrix) :
  length (Svd.resize n M0) = (2 * n)%nat.
Proof.
  unfold Svd.resize.
  rewrite length_firstn, length_app, repeat_length; lia.
Qed.

Lemma length_stack_identity (n : nat) (A : matrix) :
  length (Svd.stack_identity n A) = length A.
Proof.
  unfold Svd.stack_identity.
  apply (fold_left_invariant (fun B : matrix => length B = length A));
    [reflexivity |].
  intros B i HB; rewrite length_mset; exact HB.
Qed.

(** X18. Whatever the matrix and however many rows it has, [svd] returns as
    many numbers as the first row has entries: the matrix is resized to
    twice that many rows, no step of the iteration changes the number of
    rows, and the result is read from the lower half.  The six conic
    parameters that [ellipse_analysis] reads from the result of its five
    by six matrix are therefore all there. *)
Theorem svd_result_length (M0 : matrix) :
  length (svd M0) = length (nth 0 M0 []).
Proof.
  unfold svd, Svd.run; cbv zeta.
  rewrite length_map, length_skipn, length_cycles; cbn [Svd.M].
  rewrite length_stack_identity, length_resize; lia.
Qed.






















(** * Further properties of the orchestrator *)

Lemma generate_rotation_matrix_nan_strength (rho_1 delta rho_2 : float) :
  generate_rotation_matrix rho_1 delta rho_2 NaN = nan3.
Proof.
  unfold generate_rotation_matrix.
  destruct (quaternion rho_1 delta rho_2) as [[[w x] y] z].
  unfold rescale_quaternion, strength, matrix_of_quaternion, nan3; cbv zeta.
  nan_prop; cbn [Fl.log]; nan_prop.
  cbn [Fl.cos Fl.sin Fl.pow]; nan_prop.
  reflexivity.
Qed.

(** X21. A strength [d] that is NaN is neither clamped nor rejected: for
    every modifier with a positive focal length and every four to eight
    control points the call succeeds, and the block that it registers holds
    NaN in every slot but the focal length. *)
Theorem nan_strength_is_accepted (m : lfModifier) (x y : fvector)
        (uninit : angle_refs) :
  Fl.leb (f_normalized m) (Fin 0) = false ->
  (4 <= length x <= 8)%nat ->
  enable_perspective_correction m x y NaN uninit
  = (true,
     AddCoordCallback m ModifyCoord_Perspective_Correction 200
       [NaN; NaN; NaN; NaN; NaN; NaN; NaN; NaN; NaN;
        f_normalized m; NaN; NaN]).
Proof.
  intros Hf Hn.
  unfold enable_perspective_correction; cbv zeta.
  rewrite Hf.
  destruct (Nat.ltb_spec (length x) 4); [lia |].
  destruct (Nat.ltb_spec 8 (length x)); [lia |].
  cbn [orb].
  change (clamp_d NaN) with NaN.
  set (r := solve_angles m x y uninit).
  assert (Hcc : center_coords m r NaN = [NaN; NaN; NaN]).
  { unfold center_coords; rewrite generate_rotation_matrix_nan_strength.
    destruct (choose_center m r); unfold nan3; cbn [mget vget nth];
      nan_prop; reflexivity. }
  unfold parameter_block; cbv zeta.
  rewrite Hcc, generate_rotation_matrix_nan_strength.
  cbn [vget nth]; nan_prop.
  unfold append_alpha, central_projection, rotate_shift, nan3; cbv zeta.
  cbn [mget mset vget vset nth]; nan_prop.
  cbn [mget mset vget vset nth]; nan_prop.
  reflexivity.
Qed.

Lemma nan_strength_is_accepted_witness :
  Fl.leb (f_normalized (plain_modifier (Fin 1))) (Fin 0) = false
  /\ (4 <= length sideways_x <= 8)%nat
  /\ enable_perspective_correction (plain_modifier (Fin 1)) sideways_x
                                   sideways_y NaN stale_refs
     = (true,
        AddCoordCallback (plain_modifier (Fin 1))
          ModifyCoord_Perspective_Correction 200
          [NaN; NaN; NaN; NaN; NaN; NaN; NaN; NaN; NaN;
           f_normalized (plain_modifier (Fin 1)); NaN; NaN]).
Proof.
  assert (H1 : Fl.leb (f_normalized (plain_modifier (Fin 1))) (Fin 0) = false).
  { cbn [plain_modifier f_normalized Fl.leb]; apply Rleb_false; lra. }
  assert (H2 : (4 <= length sideways_x <= 8)%nat) by (cbn; lia).
  split; [exact H1 |].
  split; [exact H2 |].
  exact (nan_strength_is_accepted (plain_modifier (Fin 1)) sideways_x
                                  sideways_y stale_refs H1 H2).
Defined.



(** * Further properties of the central projection *)


